(** * Deep Swamp: projection, chunk streaming, render queue, physics, agents

    A shallow embedding of the simulation core of the swamp canvas
    ([SwampCanvas], [utils/math], [types.ts]) and the properties of it
    that the specification states.

    Numbers.  A JavaScript [number] is an IEEE-754 double.  The embedding
    computes on exact rationals ([Q]): every finite double is a rational,
    and the properties below are about the control flow and the algebra of
    the code, not about rounding.  Two places need care and get it:
    - [x / 0] is [0] in [Q] but NaN or an infinity in JavaScript, so the
      divisions the agents perform on a computed distance go through
      [jsdiv], which has no result at divisor zero;
    - the module [Binary64] replays the fish move on doubles
      ([PrimFloat]) at a concrete input.

    The host functions [Math.random], [Math.sqrt], [Math.cos], [Math.sin]
    and [Math.PI] are not code of the repository: they are the fields of
    the class [Host]. *)

From Stdlib Require Import QArith Qround Qminmax Qabs Lqa ZArith Lia List.
From Stdlib Require Import Sorting.Sorted Sorting.Permutation Floats Ascii.
From stdpp Require Import gmap strings list fin_maps pretty.

Local Open Scope Q_scope.

(** ** JavaScript numbers and comparisons *)

Abbreviation number := Q.

(** [a < b], [a > b] and [a <= b] of the source, as tests. *)
Definition ltb (a b : number) : bool :=
  match a ?= b with Lt => true | _ => false end.
Definition gtb (a b : number) : bool := ltb b a.
Definition leb (a b : number) : bool :=
  match a ?= b with Gt => false | _ => true end.

(** [a / b] where the source divides by a computed value: no finite result
    at [b = 0] (JavaScript yields NaN for [0 / 0] and an infinity
    otherwise, and either one then spreads through [+] and [*]). *)
Definition jsdiv (a b : number) : option number :=
  if Qeq_bool b 0 then None else Some (a / b).

(** ** The host: Math.* *)

Class Host := {
  (** the successive results of [Math.random()] during the run *)
  random_tape : nat -> number;
  Math_sqrt : number -> number;
  Math_cos : number -> number;
  Math_sin : number -> number;
  Math_PI : number
}.

(** Code that calls [Math.random] threads the position on the tape. *)
Definition Rand (A : Type) : Type := nat -> A * nat.

#[global] Instance Rand_ret : MRet Rand := fun A a n => (a, n).
#[global] Instance Rand_bind : MBind Rand :=
  fun A B k m n => let (a, n') := m n in k a n'.

Definition Math_random `{Host} : Rand number :=
  fun n => (random_tape n, S n).

(** [for (let i = 0; i < n; i++) out.push(body)] *)
Fixpoint repeatM {A} (n : nat) (body : Rand A) : Rand (list A) :=
  match n with
  | O => mret []
  | S n' => a ← body; l ← repeatM n' body; mret (a :: l)
  end.

(** A loop whose body updates one variable. *)
Fixpoint foldM {A S} (body : S -> A -> Rand S) (s : S) (l : list A) : Rand S :=
  match l with
  | [] => mret s
  | a :: l' => s' ← body s a; foldM body s' l'
  end.

(** ** utils/math *)

Module Point3D.
Record t := mk { x : number; y : number; z : number }.
End Point3D.

Module Point2D.
Record t := mk { x : number; y : number; scale : number }.
End Point2D.

Definition DEFAULT_FOCAL_LENGTH : number := 800.

Definition project3DTo2D (point : Point3D.t)
    (cameraX cameraY cameraZ centerX centerY focalLength : number) : Point2D.t :=
  let x := Point3D.x point - cameraX in
  let y := Point3D.y point - cameraY in
  let z := Point3D.z point - cameraZ in
  let depth := Qmax 1 (z + focalLength) in
  let scale := focalLength / depth in
  {| Point2D.x := centerX + x * scale;
     Point2D.y := centerY + y * scale;
     Point2D.scale := scale |}.

Definition randomRange `{Host} (min max : number) : Rand number :=
  r ← Math_random; mret (r * (max - min) + min).

(** ** Constants *)

Definition CHUNK_SIZE : number := 3000.
Definition RENDER_DISTANCE_CHUNKS : Z := 1.
Definition VISIBILITY_DEPTH : number := 3500.

Definition PLANTS_PER_CHUNK : nat := 40.
Definition FISH_PER_CHUNK : nat := 15.
Definition CRABS_PER_CHUNK : nat := 4.

Definition FRICTION : number := 0.85.
Definition ACCELERATION : number := 1.5.
Definition MAX_SPEED : number := 20.
Definition GRAVITY : number := 0.8.
Definition JUMP_FORCE : number := 18.
Definition FLOOR_LEVEL : number := 1350.
Definition SURFACE_LEVEL : number := 0.
Definition PLAYER_HEIGHT : number := 140.

(** ** types.ts *)

Inductive PlantType := ribbon | stalk | bulb.

Module Plant.
Record t := mk {
  id : number; type : PlantType; x : number; z : number; yBase : number;
  height : number; width : number; colorHue : number; segments : Z;
  phaseOffset : number; stiffness : number }.
End Plant.

Module Fish.
Record t := mk {
  id : number; x : number; y : number; z : number; speed : number;
  size : number; hue : number; tailPhase : number;
  targetY : number; targetX : number; targetZ : number }.
End Fish.

Inductive CrabState := idle | walking.

Module Crab.
Record t := mk {
  id : number; x : number; y : number; z : number; size : number;
  walkPhase : number; targetX : number; targetZ : number; speed : number;
  state : CrabState; idleTimer : number }.
End Crab.

Module Chunk.
Record t := mk {
  id : string; xIndex : Z; zIndex : Z;
  plants : list Plant.t; fishes : list Fish.t; crabs : list Crab.t }.
End Chunk.

(** ** Camera, environment and input *)

Module Camera.
Record t := mk {
  x : number; y : number; z : number;
  focalLength : number; targetFocalLength : number;
  lookX : number; lookY : number;
  velX : number; velY : number; velZ : number;
  rotationZ : number; isGrounded : bool }.
End Camera.

(** [cameraRef] as the component creates it. *)
Definition initialCamera : Camera.t :=
  {| Camera.x := 0; Camera.y := FLOOR_LEVEL - PLAYER_HEIGHT; Camera.z := -800;
     Camera.focalLength := DEFAULT_FOCAL_LENGTH;
     Camera.targetFocalLength := DEFAULT_FOCAL_LENGTH;
     Camera.lookX := 0; Camera.lookY := 0;
     Camera.velX := 0; Camera.velY := 0; Camera.velZ := 0;
     Camera.rotationZ := 0; Camera.isGrounded := false |}.

Module Env.
Record t := mk { skyHue : number; fogDensity : number; gravityMult : number }.
End Env.

Definition initialEnv : Env.t :=
  {| Env.skyHue := 180; Env.fogDensity := 1; Env.gravityMult := 1 |}.

Module Ui.
Record t := mk {
  jump : bool; zoomIn : bool; zoomOut : bool;
  forward : bool; backward : bool; left : bool; right : bool }.
End Ui.

(** What one frame reads of the input refs: [keysRef], [uiRef], [mouseRef]
    and the [isChatOpen] flag. *)
Module Input.
Record t := mk {
  keys : gset string; ui : Ui.t;
  mouseX : number; mouseY : number; isChatOpen : bool }.
End Input.

Definition has (keys : gset string) (code : string) : bool :=
  bool_decide (code ∈ keys).

(** ** Procedural generation *)

Definition isStalk (type : PlantType) : bool :=
  match type with stalk => true | _ => false end.

Definition createPlant `{Host} (baseX baseZ : number) : Rand Plant.t :=
  typeRoll ← Math_random;
  let type :=
    if gtb typeRoll 0.7 then stalk
    else if gtb typeRoll 0.9 then bulb
    else ribbon in
  rx ← randomRange 0 CHUNK_SIZE;
  let x := baseX + rx in
  rz ← randomRange 0 CHUNK_SIZE;
  let z := baseZ + rz in
  id ← Math_random;
  ry ← randomRange 0 50;
  height ← (if isStalk type then randomRange 1500 2500 else randomRange 600 1600);
  width ← (if isStalk type then randomRange 15 40 else randomRange 8 25);
  colorHue ← randomRange 140 175;
  segments ← (if isStalk type then mret 4%Z
              else r ← randomRange 8 16; mret (Qfloor r));
  phaseOffset ← randomRange 0 (Math_PI * 2);
  stiffness ← (if isStalk type then mret 0.2 else randomRange 0.8 1.5);
  mret {| Plant.id := id; Plant.type := type; Plant.x := x; Plant.z := z;
          Plant.yBase := FLOOR_LEVEL + ry; Plant.height := height;
          Plant.width := width; Plant.colorHue := colorHue;
          Plant.segments := segments; Plant.phaseOffset := phaseOffset;
          Plant.stiffness := stiffness |}.

(** The body of the fish loop of [generateChunk]. *)
Definition generateFish `{Host} (baseX baseZ : number) : Rand Fish.t :=
  rx ← randomRange 0 CHUNK_SIZE;
  let x := baseX + rx in
  rz ← randomRange 0 CHUNK_SIZE;
  let z := baseZ + rz in
  id ← Math_random;
  y ← randomRange (SURFACE_LEVEL + 200) (FLOOR_LEVEL - 200);
  speed ← randomRange 4 8;
  size ← randomRange 30 70;
  hue ← randomRange 0 360;
  tailPhase ← randomRange 0 (Math_PI * 2);
  targetY ← randomRange (SURFACE_LEVEL + 200) (FLOOR_LEVEL - 200);
  tx ← randomRange (-500) 500;
  tz ← randomRange (-500) 500;
  mret {| Fish.id := id; Fish.x := x; Fish.y := y; Fish.z := z;
          Fish.speed := speed; Fish.size := size; Fish.hue := hue;
          Fish.tailPhase := tailPhase; Fish.targetY := targetY;
          Fish.targetX := x + tx; Fish.targetZ := z + tz |}.

(** The body of the crab loop of [generateChunk]. *)
Definition generateCrab `{Host} (baseX baseZ : number) : Rand Crab.t :=
  id ← Math_random;
  rx ← randomRange 0 CHUNK_SIZE;
  rz ← randomRange 0 CHUNK_SIZE;
  size ← randomRange 30 60;
  wp ← Math_random;
  tx ← randomRange 0 CHUNK_SIZE;
  tz ← randomRange 0 CHUNK_SIZE;
  speed ← randomRange 1 3;
  mret {| Crab.id := id; Crab.x := baseX + rx; Crab.y := FLOOR_LEVEL;
          Crab.z := baseZ + rz; Crab.size := size; Crab.walkPhase := wp * 100;
          Crab.targetX := baseX + tx; Crab.targetZ := baseZ + tz;
          Crab.speed := speed; Crab.state := idle; Crab.idleTimer := 0 |}.

(** The template string [`${x},${z}`]: chunk ids and the keys of the store. *)
Definition chunkKey (x z : Z) : string := pretty x +:+ "," +:+ pretty z.

Definition generateChunk `{Host} (cx cz : Z) : Rand Chunk.t :=
  let chunkId := chunkKey cx cz in
  let baseX := inject_Z cx * CHUNK_SIZE in
  let baseZ := inject_Z cz * CHUNK_SIZE in
  newPlants ← repeatM PLANTS_PER_CHUNK (createPlant baseX baseZ);
  newFishes ← repeatM FISH_PER_CHUNK (generateFish baseX baseZ);
  newCrabs ← repeatM CRABS_PER_CHUNK (generateCrab baseX baseZ);
  mret {| Chunk.id := chunkId; Chunk.xIndex := cx; Chunk.zIndex := cz;
          Chunk.plants := newPlants; Chunk.fishes := newFishes;
          Chunk.crabs := newCrabs |}.

(** ** Chunk store *)

(** [chunksRef] with the two variables [lastChunkCheckX], [lastChunkCheckZ]
    that make [manageChunks] edge-triggered. *)
Module Store.
Record t := mk {
  chunks : gmap string Chunk.t;
  lastChunkCheckX : Z;
  lastChunkCheckZ : Z }.
End Store.

Definition initialStore : Store.t :=
  {| Store.chunks := ∅;
     Store.lastChunkCheckX := -9999; Store.lastChunkCheckZ := -9999 |}.

(** The cells the two nested [for] loops visit, in the order they do:
    [x] from [cx - R] to [cx + R], and for each [x], [z] from [cz - R] to
    [cz + R]. *)
Definition neededCells (cx cz : Z) : list (Z * Z) :=
  x ← seqZ (cx - RENDER_DISTANCE_CHUNKS) (2 * RENDER_DISTANCE_CHUNKS + 1);
  z ← seqZ (cz - RENDER_DISTANCE_CHUNKS) (2 * RENDER_DISTANCE_CHUNKS + 1);
  [(x, z)].

(** The body of the inner loop ([activeKeys] is written there and never
    read, so it has no counterpart here). *)
Definition ensureChunk `{Host} (m : gmap string Chunk.t) (cell : Z * Z)
    : Rand (gmap string Chunk.t) :=
  let key := chunkKey cell.1 cell.2 in
  match m !! key with
  | Some _ => mret m
  | None => c ← generateChunk cell.1 cell.2; mret (<[key := c]> m)
  end.

(** [Math.max(Math.abs(chunk.xIndex - cx), Math.abs(chunk.zIndex - cz))] *)
Definition chunkDist (cx cz : Z) (chunk : Chunk.t) : Z :=
  Z.max (Z.abs (Chunk.xIndex chunk - cx)) (Z.abs (Chunk.zIndex chunk - cz)).

(** The pruning loop deletes the entries with
    [dist > RENDER_DISTANCE_CHUNKS + 1]; deleting from a [Map] while
    iterating over it visits every remaining entry once. *)
Definition pruneChunks (cx cz : Z) (m : gmap string Chunk.t) : gmap string Chunk.t :=
  filter (λ kc, ¬ (RENDER_DISTANCE_CHUNKS + 1 < chunkDist cx cz kc.2)%Z) m.

Definition cameraCell (cam : Camera.t) : Z * Z :=
  (Qfloor (Camera.x cam / CHUNK_SIZE), Qfloor (Camera.z cam / CHUNK_SIZE)).

Definition manageChunks `{Host} (cam : Camera.t) (st : Store.t) : Rand Store.t :=
  let cx := (cameraCell cam).1 in
  let cz := (cameraCell cam).2 in
  if (cx =? Store.lastChunkCheckX st)%Z && (cz =? Store.lastChunkCheckZ st)%Z
  then mret st
  else
    m ← foldM ensureChunk (Store.chunks st) (neededCells cx cz);
    mret {| Store.chunks := pruneChunks cx cz m;
            Store.lastChunkCheckX := cx; Store.lastChunkCheckZ := cz |}.

(** The cell [(x, z)] has a chunk in the store. *)
Definition stored (m : gmap string Chunk.t) (x z : Z) : Prop :=
  is_Some (m !! chunkKey x z).

(** Every chunk sits under the key of its own indices. *)
Definition keyedByIndex (m : gmap string Chunk.t) : Prop :=
  forall k c, m !! k = Some c -> k = chunkKey (Chunk.xIndex c) (Chunk.zIndex c).

(** The cells [x0 <= x < x0 + nx], [z0 <= z < z0 + nz], and their keys. *)
Definition cellBlock (x0 nx z0 nz : Z) : list (Z * Z) :=
  x ← seqZ x0 nx; z ← seqZ z0 nz; [(x, z)].

Definition cellKeys (cells : list (Z * Z)) : gset string :=
  list_to_set ((fun cell => chunkKey cell.1 cell.2) <$> cells).

(** A string without a comma, as the decimal form of an integer is. *)
Fixpoint noComma (s : string) : bool :=
  match s with
  | EmptyString => true
  | String c s' => negb (Ascii.eqb c ","%char) && noComma s'
  end.

(** ** Camera physics: step 1 of [render] *)

Definition cameraPhysics (inp : Input.t) (env : Env.t) (cam : Camera.t) : Camera.t :=
  let keys := Input.keys inp in
  let ui := Input.ui inp in
  let chatClosed := negb (Input.isChatOpen inp) in
  let ax := 0 in
  let az := 0 in
  let az := if chatClosed && (has keys "KeyW" || has keys "ArrowUp" || Ui.forward ui)
            then az + ACCELERATION else az in
  let az := if chatClosed && (has keys "KeyS" || has keys "ArrowDown" || Ui.backward ui)
            then az - ACCELERATION else az in
  let ax := if chatClosed && (has keys "KeyA" || has keys "ArrowLeft" || Ui.left ui)
            then ax - ACCELERATION else ax in
  let ax := if chatClosed && (has keys "KeyD" || has keys "ArrowRight" || Ui.right ui)
            then ax + ACCELERATION else ax in
  let velX := Camera.velX cam + ax in
  let velZ := Camera.velZ cam + az in
  let jumps := chatClosed && (has keys "Space" || Ui.jump ui) && Camera.isGrounded cam in
  let velY := if jumps then (- JUMP_FORCE) * Env.gravityMult env else Camera.velY cam in
  let isGrounded := if jumps then false else Camera.isGrounded cam in
  let velY := velY + GRAVITY * Env.gravityMult env in
  let targetFocalLength := Camera.targetFocalLength cam in
  let targetFocalLength :=
    if chatClosed && (has keys "KeyQ" || Ui.zoomIn ui)
    then targetFocalLength + 10 else targetFocalLength in
  let targetFocalLength :=
    if chatClosed && (has keys "KeyE" || Ui.zoomOut ui)
    then targetFocalLength - 10 else targetFocalLength in
  let targetFocalLength := Qmax 300 (Qmin 2000 targetFocalLength) in
  let focalLength :=
    Camera.focalLength cam + (targetFocalLength - Camera.focalLength cam) * 0.1 in
  let velX := Qmax (- MAX_SPEED) (Qmin MAX_SPEED velX) in
  let velZ := Qmax (- MAX_SPEED) (Qmin MAX_SPEED velZ) in
  let x := Camera.x cam + velX in
  let y := Camera.y cam + velY in
  let z := Camera.z cam + velZ in
  let floorY := FLOOR_LEVEL - PLAYER_HEIGHT in
  let landed := gtb y floorY in
  let y := if landed then floorY else y in
  let velY := if landed then 0 else velY in
  let isGrounded := landed in
  let rotationZ :=
    Camera.rotationZ cam + (velX * 0.001 - Camera.rotationZ cam) * 0.1 in
  let velX := velX * FRICTION in
  let velZ := velZ * FRICTION in
  let lookX := if chatClosed
               then Camera.lookX cam + (Input.mouseX inp * 600 - Camera.lookX cam) * 0.1
               else Camera.lookX cam in
  let lookY := if chatClosed
               then Camera.lookY cam + (Input.mouseY inp * 400 - Camera.lookY cam) * 0.1
               else Camera.lookY cam in
  {| Camera.x := x; Camera.y := y; Camera.z := z;
     Camera.focalLength := focalLength;
     Camera.targetFocalLength := targetFocalLength;
     Camera.lookX := lookX; Camera.lookY := lookY;
     Camera.velX := velX; Camera.velY := velY; Camera.velZ := velZ;
     Camera.rotationZ := rotationZ; Camera.isGrounded := isGrounded |}.

(** ** Render queue: step 4 of [render] *)

(** What a queued closure does when it runs: it calls the submitter's
    [drawFn] (of an abstract type [D]: drawing is canvas work) with the fog
    factor and the projected, banked screen point. *)
Module DrawCall.
Record t (D : Type) := mk { drawFn : D; distFactor : number; p : Point2D.t }.
Arguments mk {D}.
Arguments drawFn {D}.
Arguments distFactor {D}.
Arguments p {D}.
End DrawCall.

Module RenderItem.
Record t (D : Type) := mk { z : number; draw : unit -> DrawCall.t D }.
Arguments mk {D}.
Arguments z {D}.
Arguments draw {D}.
End RenderItem.

Definition pushRenderItem `{Host} {D} (cam : Camera.t)
    (fogDensity centerX centerY : number) (renderQueue : list (RenderItem.t D))
    (itemX itemY itemZ : number) (drawFn : D) : list (RenderItem.t D) :=
  let relZ := itemZ - Camera.z cam in
  if ltb relZ 1 || gtb relZ VISIBILITY_DEPTH then renderQueue
  else
    let distFactor := Qmax 0 (1 - relZ / (VISIBILITY_DEPTH / fogDensity)) in
    let rCos := Math_cos (Camera.rotationZ cam) in
    let rSin := Math_sin (Camera.rotationZ cam) in
    renderQueue ++
    [ {| RenderItem.z := relZ;
         RenderItem.draw := fun _ =>
           let p := project3DTo2D (Point3D.mk itemX itemY itemZ)
                      (Camera.x cam + Camera.lookX cam * 0.5)
                      (Camera.y cam + Camera.lookY cam * 0.5)
                      (Camera.z cam) centerX centerY (Camera.focalLength cam) in
           let finalX := (Point2D.x p - centerX) * rCos
                         - (Point2D.y p - centerY) * rSin + centerX in
           let finalY := (Point2D.x p - centerX) * rSin
                         + (Point2D.y p - centerY) * rCos + centerY in
           {| DrawCall.drawFn := drawFn; DrawCall.distFactor := distFactor;
              DrawCall.p := {| Point2D.x := finalX; Point2D.y := finalY;
                               Point2D.scale := Point2D.scale p |} |} |} ].

(** [Array.prototype.sort(compare)]: a stable sort; [a] goes after [b] when
    [compare(a, b) > 0]. *)
Fixpoint insertSorted {A} (compare : A -> A -> number) (a : A) (l : list A) : list A :=
  match l with
  | [] => [a]
  | b :: l' => if gtb (compare a b) 0 then b :: insertSorted compare a l' else a :: l
  end.

Definition Array_sort {A} (compare : A -> A -> number) (l : list A) : list A :=
  foldr (insertSorted compare) [] l.

(** [renderQueue.sort((a, b) => b.z - a.z)] *)
Definition sortQueue {D} (renderQueue : list (RenderItem.t D)) : list (RenderItem.t D) :=
  Array_sort (fun a b => RenderItem.z b - RenderItem.z a) renderQueue.

(** [renderQueue.sort(...); renderQueue.forEach(item => item.draw())]: the
    draw calls of the frame, in the order they are made. *)
Definition executeQueue {D} (renderQueue : list (RenderItem.t D)) : list (DrawCall.t D) :=
  map (fun item => RenderItem.draw item tt) (sortQueue renderQueue).

(** Farthest first: no item has a smaller [z] than one that follows it. *)
Definition farthestFirst {D} (queue : list (RenderItem.t D)) : Prop :=
  StronglySorted (fun a b => RenderItem.z b <= RenderItem.z a) queue.

(** The arguments of one call of [pushRenderItem]. *)
Module Submission.
Record t (D : Type) := mk {
  itemX : number; itemY : number; itemZ : number; drawFn : D }.
Arguments mk {D}.
Arguments itemX {D}.
Arguments itemY {D}.
Arguments itemZ {D}.
Arguments drawFn {D}.
End Submission.

Definition relativeZ {D} (cam : Camera.t) (s : Submission.t D) : number :=
  Submission.itemZ s - Camera.z cam.

(** The queue of a frame: it starts empty and every submitter calls
    [pushRenderItem]. *)
Definition submitAll `{Host} {D} (cam : Camera.t) (fogDensity centerX centerY : number)
    (subs : list (Submission.t D)) : list (RenderItem.t D) :=
  fold_left (fun q s =>
    pushRenderItem cam fogDensity centerX centerY q
      (Submission.itemX s) (Submission.itemY s) (Submission.itemZ s)
      (Submission.drawFn s)) subs [].

Definition renderFrame `{Host} {D} (cam : Camera.t) (fogDensity centerX centerY : number)
    (subs : list (Submission.t D)) : list (DrawCall.t D) :=
  executeQueue (submitAll cam fogDensity centerX centerY subs).

(** ** Agent simulation: the crab and fish loops of [render]

    Each update returns [None] when it leaves a coordinate of the entity
    without a finite value (a division at distance zero). *)

Definition updateCrab `{Host} (crab : Crab.t) : Rand (option Crab.t) :=
  match Crab.state crab with
  | idle =>
      let idleTimer := Crab.idleTimer crab - 1 in
      if leb idleTimer 0 then
        rx ← randomRange (-400) 400;
        rz ← randomRange (-200) 200;
        mret (Some
          {| Crab.id := Crab.id crab; Crab.x := Crab.x crab; Crab.y := Crab.y crab;
             Crab.z := Crab.z crab; Crab.size := Crab.size crab;
             Crab.walkPhase := Crab.walkPhase crab;
             Crab.targetX := Crab.x crab + rx; Crab.targetZ := Crab.z crab + rz;
             Crab.speed := Crab.speed crab; Crab.state := walking;
             Crab.idleTimer := idleTimer |})
      else
        mret (Some
          {| Crab.id := Crab.id crab; Crab.x := Crab.x crab; Crab.y := Crab.y crab;
             Crab.z := Crab.z crab; Crab.size := Crab.size crab;
             Crab.walkPhase := Crab.walkPhase crab;
             Crab.targetX := Crab.targetX crab; Crab.targetZ := Crab.targetZ crab;
             Crab.speed := Crab.speed crab; Crab.state := idle;
             Crab.idleTimer := idleTimer |})
  | walking =>
      let dx := Crab.targetX crab - Crab.x crab in
      let dz := Crab.targetZ crab - Crab.z crab in
      let dist := Math_sqrt (dx * dx + dz * dz) in
      if ltb dist 10 then
        t ← randomRange 50 200;
        mret (Some
          {| Crab.id := Crab.id crab; Crab.x := Crab.x crab; Crab.y := Crab.y crab;
             Crab.z := Crab.z crab; Crab.size := Crab.size crab;
             Crab.walkPhase := Crab.walkPhase crab;
             Crab.targetX := Crab.targetX crab; Crab.targetZ := Crab.targetZ crab;
             Crab.speed := Crab.speed crab; Crab.state := idle;
             Crab.idleTimer := t |})
      else
        mret (match jsdiv dx dist, jsdiv dz dist with
              | Some ux, Some uz => Some
                  {| Crab.id := Crab.id crab;
                     Crab.x := Crab.x crab + ux * Crab.speed crab;
                     Crab.y := Crab.y crab;
                     Crab.z := Crab.z crab + uz * Crab.speed crab;
                     Crab.size := Crab.size crab;
                     Crab.walkPhase := Crab.walkPhase crab;
                     Crab.targetX := Crab.targetX crab;
                     Crab.targetZ := Crab.targetZ crab;
                     Crab.speed := Crab.speed crab; Crab.state := walking;
                     Crab.idleTimer := Crab.idleTimer crab |}
              | _, _ => None
              end)
  end.

(** [dx], [dz] and [dist] are computed once, before the arrival test, and
    the move that follows the test uses them whether or not the target was
    re-rolled. *)
Definition updateFish `{Host} (chunk : Chunk.t) (cam : Camera.t) (fish : Fish.t)
    : Rand (option Fish.t) :=
  r ← Math_random;
  let targetY := Fish.targetY fish + (r - 0.5) * 20 in
  let targetY := Qmax (SURFACE_LEVEL + 100) (Qmin (FLOOR_LEVEL - 100) targetY) in
  let y := Fish.y fish + (targetY - Fish.y fish) * 0.01 in
  let dx := Fish.targetX fish - Fish.x fish in
  let dz := Fish.targetZ fish - Fish.z fish in
  let dist := Math_sqrt (dx * dx + dz * dz) in
  target ← (if ltb dist 20 then
              rx ← randomRange 0 CHUNK_SIZE;
              rz ← randomRange 0 CHUNK_SIZE;
              mret (inject_Z (Chunk.xIndex chunk) * CHUNK_SIZE + rx,
                    inject_Z (Chunk.zIndex chunk) * CHUNK_SIZE + rz)
            else mret (Fish.targetX fish, Fish.targetZ fish));
  mret (match jsdiv dx dist, jsdiv dz dist with
        | Some ux, Some uz =>
            let x := Fish.x fish + ux * Fish.speed fish * 0.5 in
            let z := Fish.z fish + uz * Fish.speed fish * 0.5 in
            let camDx := x - Camera.x cam in
            let camDz := z - Camera.z cam in
            let distToCam := Math_sqrt (camDx * camDx + camDz * camDz) in
            let x := if ltb distToCam 200
                     then x + (if gtb camDx 0 then 5 else -5) else x in
            Some {| Fish.id := Fish.id fish; Fish.x := x; Fish.y := y; Fish.z := z;
                    Fish.speed := Fish.speed fish; Fish.size := Fish.size fish;
                    Fish.hue := Fish.hue fish; Fish.tailPhase := Fish.tailPhase fish;
                    Fish.targetY := targetY;
                    Fish.targetX := target.1; Fish.targetZ := target.2 |}
        | _, _ => None
        end).

(** The planar distance of a crab to its target, as the walking branch
    computes it. *)
Definition crabDist `{Host} (crab : Crab.t) : number :=
  let dx := Crab.targetX crab - Crab.x crab in
  let dz := Crab.targetZ crab - Crab.z crab in
  Math_sqrt (dx * dx + dz * dz).

(** The planar distance of a fish to its target, as the fish loop
    computes it. *)
Definition fishDist `{Host} (fish : Fish.t) : number :=
  let dx := Fish.targetX fish - Fish.x fish in
  let dz := Fish.targetZ fish - Fish.z fish in
  Math_sqrt (dx * dx + dz * dz).

(** ** The same fish lines on IEEE-754 doubles

    [PrimFloat] is binary64, the arithmetic of a JavaScript [number]. *)
Module Binary64.
Local Open Scope float_scope.

(** [randomRange] with [r] the result of [Math.random()] *)
Definition randomRange (r min max : float) : float := r * (max - min) + min.

(** [targetX: x + randomRange(-500, 500)] in [generateChunk] *)
Definition initialTarget (x r : float) : float := x + randomRange r (-500) 500.

(** The lines of the fish loop that write [fish.x] and [fish.z]: the move
    towards the target and the camera avoidance.  (The re-roll of the
    target between them assigns [fish.targetX] and [fish.targetZ] only.) *)
Definition fishMove (camX camZ x z targetX targetZ speed : float) : float * float :=
  let dx := targetX - x in
  let dz := targetZ - z in
  let dist := PrimFloat.sqrt (dx * dx + dz * dz) in
  let x := x + (dx / dist) * speed * 0.5 in
  let z := z + (dz / dist) * speed * 0.5 in
  let camDx := x - camX in
  let camDz := z - camZ in
  let distToCam := PrimFloat.sqrt (camDx * camDx + camDz * camDz) in
  let x := if distToCam <? 200 then x + (if 0 <? camDx then 5 else -5) else x in
  (x, z).
End Binary64.

(** ** A host to run the definitions on

    [Math.random] always returns [0.5]; the square root is the integer
    square root of the integer part; no banking. *)
Definition sampleHost : Host :=
  {| random_tape := fun _ => 0.5;
     Math_sqrt := fun a => inject_Z (Z.sqrt (Qfloor a));
     Math_cos := fun _ => 1;
     Math_sin := fun _ => 0;
     Math_PI := 3.141592653589793 |}.

(** ** Sample inputs *)

Definition noUi : Ui.t :=
  {| Ui.jump := false; Ui.zoomIn := false; Ui.zoomOut := false;
     Ui.forward := false; Ui.backward := false; Ui.left := false;
     Ui.right := false |}.

(** Nothing pressed, pointer at the centre, chat closed. *)
Definition idleInput : Input.t :=
  {| Input.keys := ∅; Input.ui := noUi;
     Input.mouseX := 0; Input.mouseY := 0; Input.isChatOpen := false |}.

(** The space bar held down, chat closed. *)
Definition jumpInput : Input.t :=
  {| Input.keys := {[ "Space" ]}; Input.ui := noUi;
     Input.mouseX := 0; Input.mouseY := 0; Input.isChatOpen := false |}.

(** The camera standing on the floor, at rest. *)
Definition groundedCamera : Camera.t :=
  {| Camera.x := 0; Camera.y := FLOOR_LEVEL - PLAYER_HEIGHT; Camera.z := -800;
     Camera.focalLength := DEFAULT_FOCAL_LENGTH;
     Camera.targetFocalLength := DEFAULT_FOCAL_LENGTH;
     Camera.lookX := 0; Camera.lookY := 0;
     Camera.velX := 0; Camera.velY := 0; Camera.velZ := 0;
     Camera.rotationZ := 0; Camera.isGrounded := true |}.

(** A submission at world depth [z], its draw function named [name]. *)
Definition sampleSubmission (z : number) (name : string) : Submission.t string :=
  {| Submission.itemX := 0; Submission.itemY := FLOOR_LEVEL;
     Submission.itemZ := z; Submission.drawFn := name |}.

(** A camera standing at [(x, z)] on the floor. *)
Definition cameraAt (x z : number) : Camera.t :=
  {| Camera.x := x; Camera.y := FLOOR_LEVEL - PLAYER_HEIGHT; Camera.z := z;
     Camera.focalLength := DEFAULT_FOCAL_LENGTH;
     Camera.targetFocalLength := DEFAULT_FOCAL_LENGTH;
     Camera.lookX := 0; Camera.lookY := 0;
     Camera.velX := 0; Camera.velY := 0; Camera.velZ := 0;
     Camera.rotationZ := 0; Camera.isGrounded := true |}.

(** ** utils/math: [mapRange] *)

(** The divisor [inMax - inMin] is computed: no finite result when the
    input range is empty. *)
Definition mapRange (value inMin inMax outMin outMax : number) : option number :=
  match jsdiv ((value - inMin) * (outMax - outMin)) (inMax - inMin) with
  | Some q => Some (q + outMin)
  | None => None
  end.

(** ** The assistant's tools: [handleSendMessage] *)

(** The fish literal pushed by the [spawnCreature] call.  [hue || ...]
    takes the random hue when [hue] is [undefined] or [0]. *)
Definition spawnFish `{Host} (cam : Camera.t) (hue : option number) : Rand Fish.t :=
  id ← Math_random;
  rx ← randomRange (-500) 500;
  ry ← randomRange 100 500;
  rz ← randomRange 200 1000;
  speed ← randomRange 4 10;
  size ← randomRange 30 80;
  h ← (match hue with
       | Some h => if Qeq_bool h 0 then randomRange 0 360 else mret h
       | None => randomRange 0 360
       end);
  mret {| Fish.id := id; Fish.x := Camera.x cam + rx; Fish.y := Camera.y cam - ry;
          Fish.z := Camera.z cam + rz; Fish.speed := speed; Fish.size := size;
          Fish.hue := h; Fish.tailPhase := 0; Fish.targetY := FLOOR_LEVEL - 300;
          Fish.targetX := Camera.x cam; Fish.targetZ := Camera.z cam + 1000 |}.

(** Which of the two bracketed notes the call appends to the reply:
    [Spawned ...] or [Could not spawn - no active chunk]. *)
Inductive SpawnOutcome := Spawned | NoActiveChunk.

(** [for (let i = 0; i < count; i++)] runs [max(0, ceil(count))] times. *)
Definition loopCount (count : number) : nat := Z.to_nat (Qceiling count).

(** The [spawnCreature] call on the chunk map: the chunk of the camera's
    cell gets the new fish pushed onto its [fishes]. *)
Definition spawnCreature `{Host} (type : string) (count : number) (hue : option number)
    (cam : Camera.t) (m : gmap string Chunk.t)
    : Rand (gmap string Chunk.t * SpawnOutcome) :=
  let cx := (cameraCell cam).1 in
  let cz := (cameraCell cam).2 in
  let key := chunkKey cx cz in
  match m !! key with
  | Some chunk =>
      fishes ← foldM (fun fishes (_ : nat) =>
                        if String.eqb type "fish"
                        then f ← spawnFish cam hue; mret (fishes ++ [f])
                        else mret fishes)
                     (Chunk.fishes chunk) (seq 0 (loopCount count));
      mret (<[key := {| Chunk.id := Chunk.id chunk;
                        Chunk.xIndex := Chunk.xIndex chunk;
                        Chunk.zIndex := Chunk.zIndex chunk;
                        Chunk.plants := Chunk.plants chunk;
                        Chunk.fishes := fishes;
                        Chunk.crabs := Chunk.crabs chunk |}]> m, Spawned)
  | None => mret (m, NoActiveChunk)
  end.

(** ** Holograms *)

(** [I] stands for the image element; the [id] is kept as the number
    whose decimal form the source stores. *)
Module Hologram.
Record t (I : Type) := mk {
  id : number; x : number; y : number; z : number;
  width : number; height : number; image : I; opacity : number }.
Arguments mk {I}.
Arguments id {I}.
Arguments x {I}.
Arguments y {I}.
Arguments z {I}.
Arguments width {I}.
Arguments height {I}.
Arguments image {I}.
Arguments opacity {I}.
End Hologram.

(** The [img.onload] handler of the [generateHologram] call. *)
Definition addHologram `{Host} {I} (cam : Camera.t) (img : I)
    (holograms : list (Hologram.t I)) : Rand (list (Hologram.t I)) :=
  id ← Math_random;
  mret (holograms ++
        [ {| Hologram.id := id; Hologram.x := Camera.x cam;
             Hologram.y := Camera.y cam - 400; Hologram.z := Camera.z cam + 800;
             Hologram.width := 800; Hologram.height := 800;
             Hologram.image := img; Hologram.opacity := 0 |} ]).

(** The fade-in at the head of the hologram loop of [render]. *)
Definition fadeHologram {I} (h : Hologram.t I) : Hologram.t I :=
  {| Hologram.id := Hologram.id h; Hologram.x := Hologram.x h;
     Hologram.y := Hologram.y h; Hologram.z := Hologram.z h;
     Hologram.width := Hologram.width h; Hologram.height := Hologram.height h;
     Hologram.image := Hologram.image h;
     Hologram.opacity := Qmin 1 (Hologram.opacity h + 0.01) |}.

Definition hologramSubmission {I D} (h : Hologram.t I) (drawFn : D) : Submission.t D :=
  {| Submission.itemX := Hologram.x h; Submission.itemY := Hologram.y h;
     Submission.itemZ := Hologram.z h; Submission.drawFn := drawFn |}.

(** [frames] frames of the hologram loop. *)
Fixpoint fadeFrames {I} (frames : nat) (h : Hologram.t I) : Hologram.t I :=
  match frames with
  | O => h
  | S k => fadeFrames k (fadeHologram h)
  end.

(** ** Particles *)

Module Particle.
Record t := mk {
  x : number; y : number; z : number; radius : number;
  speedX : number; speedY : number; alpha : number; glow : bool }.
End Particle.

Definition PARTICLE_COUNT : nat := 600.

(** The body of the loop of [initParticles]. *)
Definition createParticle `{Host} : Rand Particle.t :=
  x ← randomRange (-2000) 2000;
  y ← randomRange SURFACE_LEVEL FLOOR_LEVEL;
  z ← randomRange 0 VISIBILITY_DEPTH;
  radius ← randomRange 0.5 3;
  speedX ← randomRange (-0.5) 0.5;
  speedY ← randomRange (-0.5) (-0.1);
  alpha ← randomRange 0.1 0.8;
  g ← Math_random;
  mret {| Particle.x := x; Particle.y := y; Particle.z := z;
          Particle.radius := radius; Particle.speedX := speedX;
          Particle.speedY := speedY; Particle.alpha := alpha;
          Particle.glow := gtb g 0.9 |}.

Definition initParticles `{Host} : Rand (list Particle.t) :=
  repeatM PARTICLE_COUNT createParticle.

(** The particle loop of [render], up to the submission. *)
Definition updateParticle `{Host} (time : number) (env : Env.t) (p : Particle.t)
    : Rand Particle.t :=
  let y := Particle.y p - Qabs (Particle.speedY p) * 2 * Env.gravityMult env in
  let x := Particle.x p + Math_sin (time * 0.001 + Particle.z p) * 0.5 in
  if ltb y SURFACE_LEVEL then
    r ← randomRange (-2000) 2000;
    mret {| Particle.x := r; Particle.y := FLOOR_LEVEL; Particle.z := Particle.z p;
            Particle.radius := Particle.radius p; Particle.speedX := Particle.speedX p;
            Particle.speedY := Particle.speedY p; Particle.alpha := Particle.alpha p;
            Particle.glow := Particle.glow p |}
  else
    mret {| Particle.x := x; Particle.y := y; Particle.z := Particle.z p;
            Particle.radius := Particle.radius p; Particle.speedX := Particle.speedX p;
            Particle.speedY := Particle.speedY p; Particle.alpha := Particle.alpha p;
            Particle.glow := Particle.glow p |}.

(** [pushRenderItem(cam.x + p.x, p.y, cam.z + p.z, ...)] *)
Definition particleSubmission {D} (cam : Camera.t) (p : Particle.t) (drawFn : D)
    : Submission.t D :=
  {| Submission.itemX := Camera.x cam + Particle.x p; Submission.itemY := Particle.y p;
     Submission.itemZ := Camera.z cam + Particle.z p; Submission.drawFn := drawFn |}.

(** ** Surface water mesh *)

(** The values of [v] in [for (let v = start; v <= stop; v += step)],
    [step > 0]. *)
Definition stepRange (start stop step : number) : list number :=
  (fun k => start + inject_Z k * step) <$> seqZ 0 (Qfloor ((stop - start) / step) + 1).

(** The world points the water loop submits, in order ([z] outer, [x]
    inner); none when the camera looks up beyond [lookY = -500]. *)
Definition waterMesh `{Host} (cam : Camera.t) (time : number)
    : list (number * number * number) :=
  if gtb (Camera.lookY cam) (-500) then
    let gridRange := 2000 in
    let step := 500 in
    let startX := inject_Z (Qfloor ((Camera.x cam - gridRange) / step)) * step in
    let endX := inject_Z (Qfloor ((Camera.x cam + gridRange) / step)) * step in
    let startZ := inject_Z (Qfloor ((Camera.z cam - gridRange) / step)) * step in
    let endZ := inject_Z (Qfloor ((Camera.z cam + gridRange) / step)) * step in
    z ← stepRange startZ endZ step;
    x ← stepRange startX endX step;
    let waveY := Math_sin (x * 0.01 + time * 0.002) * 50
                 + Math_cos (z * 0.01 + time * 0.003) * 50 in
    [(x, SURFACE_LEVEL + waveY, z)]
  else [].

(** ** Input handlers *)

(** [handleMouseMove]: the pointer, normalized by the window size. *)
Definition handleMouseMove (clientX clientY innerWidth innerHeight : number)
    : option (number * number) :=
  match jsdiv clientX innerWidth, jsdiv clientY innerHeight with
  | Some u, Some v => Some (u * 2 - 1, v * 2 - 1)
  | _, _ => None
  end.

(** [handleKeyUp]: the key leaves the set of keys held down. *)
Definition handleKeyUp (code : string) (keys : gset string) : gset string :=
  keys ∖ {[ code ]}.

(** The input with the jump intent taken away. *)
Definition releaseJump (inp : Input.t) : Input.t :=
  {| Input.keys := handleKeyUp "Space" (Input.keys inp);
     Input.ui := {| Ui.jump := false; Ui.zoomIn := Ui.zoomIn (Input.ui inp);
                    Ui.zoomOut := Ui.zoomOut (Input.ui inp);
                    Ui.forward := Ui.forward (Input.ui inp);
                    Ui.backward := Ui.backward (Input.ui inp);
                    Ui.left := Ui.left (Input.ui inp);
                    Ui.right := Ui.right (Input.ui inp) |};
     Input.mouseX := Input.mouseX inp; Input.mouseY := Input.mouseY inp;
     Input.isChatOpen := Input.isChatOpen inp |}.

(** ** Statements about the store and the queue *)

(** Every cell within [RENDER_DISTANCE_CHUNKS] of [(cx, cz)] is stored. *)
Definition coversRenderDistance (m : gmap string Chunk.t) (cx cz : Z) : Prop :=
  forall x z,
    (Z.abs (x - cx) <= RENDER_DISTANCE_CHUNKS)%Z ->
    (Z.abs (z - cz) <= RENDER_DISTANCE_CHUNKS)%Z -> stored m x z.

(** The test of [pushRenderItem], on a submission: it is kept. *)
Definition survivesCull {D} (cam : Camera.t) (s : Submission.t D) : bool :=
  negb (ltb (relativeZ cam s) 1 || gtb (relativeZ cam s) VISIBILITY_DEPTH).

(** Two queued items that differ at most in their fog factor. *)
Definition sameButFog {D} (a b : RenderItem.t D) : Prop :=
  RenderItem.z a = RenderItem.z b
  /\ DrawCall.drawFn (RenderItem.draw a tt) = DrawCall.drawFn (RenderItem.draw b tt)
  /\ DrawCall.p (RenderItem.draw a tt) = DrawCall.p (RenderItem.draw b tt).

(** ** More sample values *)

(** An empty chunk at cell (0,0), and a store that holds it. *)
Definition sampleChunk : Chunk.t :=
  {| Chunk.id := "0,0"; Chunk.xIndex := 0; Chunk.zIndex := 0;
     Chunk.plants := []; Chunk.fishes := []; Chunk.crabs := [] |}.

Definition sampleChunks : gmap string Chunk.t := {[ "0,0" := sampleChunk ]}.

(** A fish 100 away from its target. *)
Definition sampleFish : Fish.t :=
  {| Fish.id := 0.25; Fish.x := 0; Fish.y := 600; Fish.z := 0; Fish.speed := 6;
     Fish.size := 40; Fish.hue := 200; Fish.tailPhase := 0; Fish.targetY := 600;
     Fish.targetX := 100; Fish.targetZ := 0 |}.

(** A crab walking to a target 100 away. *)
Definition sampleCrab : Crab.t :=
  {| Crab.id := 0.75; Crab.x := 0; Crab.y := FLOOR_LEVEL; Crab.z := 0;
     Crab.size := 40; Crab.walkPhase := 0; Crab.targetX := 100; Crab.targetZ := 0;
     Crab.speed := 2; Crab.state := walking; Crab.idleTimer := 0 |}.

(** A particle just under the surface. *)
Definition sampleParticle : Particle.t :=
  {| Particle.x := 10; Particle.y := 0.5; Particle.z := 1200;
     Particle.radius := 1; Particle.speedX := 0; Particle.speedY := -0.5;
     Particle.alpha := 0.5; Particle.glow := false |}.

(** * Properties *)

(** ** Comparisons *)

Lemma ltb_lt (a b : number) : ltb a b = true <-> a < b.
Proof.
  unfold ltb. rewrite Qlt_alt. destruct (a ?= b); split; congruence.
Qed.

Lemma ltb_ge (a b : number) : ltb a b = false <-> b <= a.
Proof.
  rewrite <- not_true_iff_false, ltb_lt. split; [apply Qnot_lt_le | apply Qle_not_lt].
Qed.

Lemma gtb_gt (a b : number) : gtb a b = true <-> b < a.
Proof. apply ltb_lt. Qed.

Lemma gtb_le (a b : number) : gtb a b = false <-> a <= b.
Proof. apply ltb_ge. Qed.

Lemma leb_le (a b : number) : leb a b = true <-> a <= b.
Proof.
  unfold leb. rewrite Qle_alt. destruct (a ?= b); split; congruence.
Qed.

Lemma jsdiv_Some (a b : number) : ~ b == 0 -> jsdiv a b = Some (a / b).
Proof.
  intros Hb. unfold jsdiv. destruct (Qeq_bool b 0) eqn:E; [|reflexivity].
  apply Qeq_bool_eq in E. contradiction.
Qed.

Lemma jsdiv_zero (a b : number) : b == 0 -> jsdiv a b = None.
Proof.
  intros Hb. unfold jsdiv. apply Qeq_eq_bool in Hb. now rewrite Hb.
Qed.

(** ** Projection *)

Lemma Qmax_one_pos (a : number) : 0 < Qmax 1 a.
Proof.
  destruct (Q.max_spec 1 a) as [[H ->]|[H ->]]; lra.
Qed.

(** The divisor of [project3DTo2D] is at least 1: the division there is
    never a division by zero. *)
Lemma project3DTo2D_depth_ge_1 (z focalLength : number) : 1 <= Qmax 1 (z + focalLength).
Proof. apply Q.le_max_l. Qed.

(** C4, as the code has it: for a point whose z equals the camera z, the
    depth is [max(1, focalLength)] (floored at 1) and the scale is
    [focalLength / max(1, focalLength)]: it equals [focalLength] when
    [focalLength <= 1], and it is 1 when [focalLength >= 1]. *)
Theorem project3DTo2D_zero_relative_depth
    (point : Point3D.t) (cameraX cameraY cameraZ centerX centerY focalLength : number) :
  Point3D.z point == cameraZ ->
  let p := project3DTo2D point cameraX cameraY cameraZ centerX centerY focalLength in
  Point2D.scale p == focalLength / Qmax 1 focalLength
  /\ 1 <= Qmax 1 focalLength
  /\ (focalLength <= 1 -> Point2D.scale p == focalLength)
  /\ (1 <= focalLength -> Point2D.scale p == 1).
Proof.
  intros Hz p. subst p. unfold project3DTo2D. cbn [Point2D.scale].
  assert (Hd : Qmax 1 (Point3D.z point - cameraZ + focalLength) == Qmax 1 focalLength).
  { destruct (Q.max_spec 1 (Point3D.z point - cameraZ + focalLength)) as [[H ->]|[H ->]];
    destruct (Q.max_spec 1 focalLength) as [[H' ->]|[H' ->]]; lra. }
  rewrite Hd. repeat split.
  - apply Q.le_max_l.
  - intros Hf. rewrite Q.max_l by exact Hf. field.
  - intros Hf. rewrite Q.max_r by exact Hf. field. lra.
Qed.

Lemma project3DTo2D_zero_relative_depth_witness :
  Point2D.scale (project3DTo2D (Point3D.mk 10 20 (-800)) 0 1210 (-800) 640 360 800) == 1.
Proof.
  apply (project3DTo2D_zero_relative_depth
           (Point3D.mk 10 20 (-800)) 0 1210 (-800) 640 360 800).
  - reflexivity.
  - vm_compute. discriminate.
Defined.

(** C4 as stated fails: at the default focal length 800 a point at the
    camera's z has scale 1, not 800. *)
Lemma project3DTo2D_scale_is_not_focalLength :
  let p := project3DTo2D (Point3D.mk 0 0 0) 0 0 0 0 0 DEFAULT_FOCAL_LENGTH in
  Point3D.z (Point3D.mk 0 0 0) == 0
  /\ Point2D.scale p == 1
  /\ ~ Point2D.scale p == DEFAULT_FOCAL_LENGTH.
Proof.
  vm_compute. repeat split; discriminate.
Qed.

(** ** Camera physics *)

(** The vertical part of one frame: the jump impulse, gravity, the
    integration and the floor clamp. *)
Lemma cameraPhysics_vertical (inp : Input.t) (env : Env.t) (cam : Camera.t) :
  let jumps := negb (Input.isChatOpen inp)
               && (has (Input.keys inp) "Space" || Ui.jump (Input.ui inp))
               && Camera.isGrounded cam in
  let velY := (if jumps then (- JUMP_FORCE) * Env.gravityMult env else Camera.velY cam)
              + GRAVITY * Env.gravityMult env in
  let y := Camera.y cam + velY in
  let landed := gtb y (FLOOR_LEVEL - PLAYER_HEIGHT) in
  let cam' := cameraPhysics inp env cam in
  Camera.y cam' = (if landed then FLOOR_LEVEL - PLAYER_HEIGHT else y)
  /\ Camera.velY cam' = (if landed then 0 else velY)
  /\ Camera.isGrounded cam' = landed.
Proof. repeat split. Qed.

(** C10: after every frame of the camera physics the camera is not below
    the floor plane ([y <= FLOOR_LEVEL - PLAYER_HEIGHT]), and when the
    frame leaves [isGrounded] set, [y] is exactly the floor plane and the
    vertical velocity is zero; whatever the input, the environment and the
    state before. *)
Theorem floor_clamp_invariant (inp : Input.t) (env : Env.t) (cam : Camera.t) :
  let cam' := cameraPhysics inp env cam in
  Camera.y cam' <= FLOOR_LEVEL - PLAYER_HEIGHT
  /\ (Camera.isGrounded cam' = true ->
      Camera.y cam' = FLOOR_LEVEL - PLAYER_HEIGHT /\ Camera.velY cam' = 0).
Proof.
  destruct (cameraPhysics_vertical inp env cam) as (Hy & Hv & Hg).
  cbv zeta in *. rewrite Hy, Hv, Hg.
  match goal with |- context [gtb ?a ?b] => destruct (gtb a b) eqn:E end.
  - split; [apply Qle_refl | auto].
  - apply gtb_le in E. split; [exact E | discriminate].
Qed.

Lemma floor_clamp_invariant_witness :
  let cam' := cameraPhysics idleInput initialEnv initialCamera in
  Camera.isGrounded cam' = true
  /\ Camera.y cam' = FLOOR_LEVEL - PLAYER_HEIGHT /\ Camera.velY cam' = 0.
Proof.
  split; [vm_compute; reflexivity|].
  apply (floor_clamp_invariant idleInput initialEnv initialCamera).
  vm_compute; reflexivity.
Defined.

(** C8, as the code has it: from a camera on or above the floor plane with
    [isGrounded] set, one frame with the jump intent and the chat closed,
    under a gravity multiplier [g >= 0], replaces the vertical velocity by
    the impulse [-JUMP_FORCE * g], adds the gravity [GRAVITY * g] of the
    same frame to it, and leaves [isGrounded] cleared. *)
Theorem jump_impulse (inp : Input.t) (env : Env.t) (cam : Camera.t) :
  Input.isChatOpen inp = false ->
  has (Input.keys inp) "Space" || Ui.jump (Input.ui inp) = true ->
  Camera.isGrounded cam = true ->
  Camera.y cam <= FLOOR_LEVEL - PLAYER_HEIGHT ->
  0 <= Env.gravityMult env ->
  let cam' := cameraPhysics inp env cam in
  Camera.velY cam' ==
    (- JUMP_FORCE) * Env.gravityMult env + GRAVITY * Env.gravityMult env
  /\ Camera.isGrounded cam' = false.
Proof.
  intros Hchat Hjump Hgr Hy Hg.
  destruct (cameraPhysics_vertical inp env cam) as (_ & Hv & Hgr').
  cbv zeta in *. rewrite Hv, Hgr'. rewrite Hchat, Hjump, Hgr. cbn [negb andb].
  match goal with |- context [gtb ?a ?b] => destruct (gtb a b) eqn:E end.
  - apply gtb_gt in E. unfold JUMP_FORCE, GRAVITY, FLOOR_LEVEL, PLAYER_HEIGHT in *. lra.
  - split; reflexivity.
Qed.

Lemma jump_impulse_witness :
  let cam' := cameraPhysics jumpInput initialEnv groundedCamera in
  Camera.velY cam' ==
    (- JUMP_FORCE) * Env.gravityMult initialEnv + GRAVITY * Env.gravityMult initialEnv
  /\ Camera.isGrounded cam' = false.
Proof.
  apply (jump_impulse jumpInput initialEnv groundedCamera).
  - reflexivity.
  - vm_compute; reflexivity.
  - reflexivity.
  - vm_compute; discriminate.
  - vm_compute; discriminate.
Defined.

(** C8 as stated fails: grounded and at rest under the default gravity
    multiplier 1, the frame that jumps ends with vertical velocity
    [-17.2], not [-JUMP_FORCE * gravityMult = -18]. *)
Lemma jump_velocity_is_not_the_bare_impulse :
  let cam' := cameraPhysics jumpInput initialEnv groundedCamera in
  Camera.isGrounded groundedCamera = true
  /\ Camera.velY groundedCamera == 0
  /\ Camera.velY cam' == -17.2
  /\ ~ Camera.velY cam' == (- JUMP_FORCE) * Env.gravityMult initialEnv.
Proof.
  vm_compute. repeat split; discriminate.
Qed.

(** ** Procedural generation *)

Section Generation.
Context `{Host}.

Lemma repeatM_Forall {A} (P : A -> Prop) (body : Rand A) (k : nat) :
  (forall n, P (body n).1) -> forall n, Forall P (repeatM k body n).1.
Proof.
  intros Hbody. induction k as [|k IH]; intros n; cbn.
  - constructor.
  - unfold mbind, Rand_bind. specialize (Hbody n).
    destruct (body n) as [a n1]. specialize (IH n1).
    destruct (repeatM k body n1) as [l n2]. cbn in *. constructor; assumption.
Qed.

Lemma repeatM_length {A} (body : Rand A) (k n : nat) :
  length (repeatM k body n).1 = k.
Proof.
  revert n. induction k as [|k IH]; intros n; cbn; [reflexivity|].
  unfold mbind, Rand_bind. destruct (body n) as [a n1]. specialize (IH n1).
  destruct (repeatM k body n1) as [l n2]. cbn in *. now rewrite IH.
Qed.

(** The type of a plant is decided by the first roll alone. *)
Lemma createPlant_type (baseX baseZ : number) (n : nat) :
  Plant.type (createPlant baseX baseZ n).1 =
    if gtb (random_tape n) 0.7 then stalk
    else if gtb (random_tape n) 0.9 then bulb else ribbon.
Proof.
  unfold createPlant, randomRange, Math_random, mbind, Rand_bind, mret, Rand_ret.
  destruct (gtb (random_tape n) 0.7); [reflexivity|].
  destruct (gtb (random_tape n) 0.9); reflexivity.
Qed.

Lemma generateChunk_plants (cx cz : Z) (n : nat) :
  Chunk.plants (generateChunk cx cz n).1 =
    (repeatM PLANTS_PER_CHUNK
       (createPlant (inject_Z cx * CHUNK_SIZE) (inject_Z cz * CHUNK_SIZE)) n).1.
Proof.
  unfold generateChunk, mbind, Rand_bind, mret, Rand_ret.
  destruct (repeatM PLANTS_PER_CHUNK _ n) as [ps n1].
  destruct (repeatM FISH_PER_CHUNK _ n1) as [fs n2].
  destruct (repeatM CRABS_PER_CHUNK _ n2) as [cs n3]. reflexivity.
Qed.

Lemma generateChunk_index (cx cz : Z) (n : nat) :
  let c := (generateChunk cx cz n).1 in
  Chunk.xIndex c = cx /\ Chunk.zIndex c = cz /\ Chunk.id c = chunkKey cx cz.
Proof.
  unfold generateChunk, mbind, Rand_bind, mret, Rand_ret.
  destruct (repeatM PLANTS_PER_CHUNK _ n) as [ps n1].
  destruct (repeatM FISH_PER_CHUNK _ n1) as [fs n2].
  destruct (repeatM CRABS_PER_CHUNK _ n2) as [cs n3]. cbn. auto.
Qed.

(** C6: whatever [Math.random] returns, a created plant is a stalk when
    its type roll exceeds 0.7 and a ribbon otherwise; the bulb branch is
    never taken, and no plant of a generated chunk is a bulb. *)
Theorem plant_type_never_bulb :
  (forall (baseX baseZ : number) (n : nat),
     let typeRoll := random_tape n in
     let plant := (createPlant baseX baseZ n).1 in
     Plant.type plant = (if gtb typeRoll 0.7 then stalk else ribbon)
     /\ Plant.type plant <> bulb)
  /\ (forall (cx cz : Z) (n : nat),
        let chunk := (generateChunk cx cz n).1 in
        length (Chunk.plants chunk) = PLANTS_PER_CHUNK
        /\ Forall (fun plant => Plant.type plant <> bulb) (Chunk.plants chunk)).
Proof.
  assert (Hone : forall baseX baseZ n,
    Plant.type (createPlant baseX baseZ n).1
      = (if gtb (random_tape n) 0.7 then stalk else ribbon)
    /\ Plant.type (createPlant baseX baseZ n).1 <> bulb).
  { intros baseX baseZ n. rewrite createPlant_type.
    destruct (gtb (random_tape n) 0.7) eqn:E7; [split; [reflexivity|discriminate]|].
    destruct (gtb (random_tape n) 0.9) eqn:E9; [|split; [reflexivity|discriminate]].
    apply gtb_le in E7. apply gtb_gt in E9. lra. }
  split; [exact Hone|].
  intros cx cz n chunk. subst chunk. rewrite generateChunk_plants. split.
  - apply repeatM_length.
  - apply repeatM_Forall. intros m. apply Hone.
Qed.

End Generation.

(** ** Agent simulation *)

Section Agents.
Context `{Host}.

Lemma randomRange_value (min max : number) (n : nat) :
  randomRange min max n = (random_tape n * (max - min) + min, S n).
Proof. reflexivity. Qed.

(** [randomRange(min, max)] lies in [[min, max)] when [Math.random] lies in
    [[0, 1)]. *)
Lemma randomRange_bounds (min max : number) (n : nat) :
  0 <= random_tape n < 1 -> min < max ->
  min <= (randomRange min max n).1 < max.
Proof.
  intros [H0 H1] Hlt. rewrite randomRange_value. cbn [fst].
  split; nra.
Qed.

Lemma updateCrab_idle (crab : Crab.t) (n : nat) :
  Crab.state crab = idle -> Crab.idleTimer crab - 1 <= 0 ->
  exists crab',
    (updateCrab crab n).1 = Some crab'
    /\ Crab.state crab' = walking
    /\ Crab.targetX crab' = Crab.x crab + (randomRange (-400) 400 n).1
    /\ Crab.targetZ crab' = Crab.z crab + (randomRange (-200) 200 (S n)).1
    /\ Crab.x crab' = Crab.x crab /\ Crab.z crab' = Crab.z crab.
Proof.
  intros Hst Ht. unfold updateCrab. rewrite Hst.
  apply leb_le in Ht. rewrite Ht.
  eexists. split; [reflexivity|]. cbn. auto.
Qed.

Lemma updateCrab_arrival (crab : Crab.t) (n : nat) :
  Crab.state crab = walking -> crabDist crab < 10 ->
  exists crab',
    (updateCrab crab n).1 = Some crab'
    /\ Crab.state crab' = idle
    /\ Crab.idleTimer crab' = (randomRange 50 200 n).1
    /\ Crab.x crab' = Crab.x crab /\ Crab.z crab' = Crab.z crab.
Proof.
  intros Hst Hd. unfold updateCrab. rewrite Hst.
  apply ltb_lt in Hd. unfold crabDist in Hd. rewrite Hd.
  eexists. split; [reflexivity|]. cbn. auto.
Qed.

(** C9: with [Math.random] in [[0, 1)], an idle crab whose timer reaches
    zero on this update starts walking, towards a target within 400 of its
    x and within 200 of its z; a walking crab closer than 10 to its target
    goes idle with a fresh, strictly positive idle timer. *)
Theorem crab_state_machine (crab : Crab.t) (n : nat) :
  (forall k, 0 <= random_tape k < 1) ->
  (Crab.state crab = idle -> Crab.idleTimer crab - 1 <= 0 ->
   exists crab',
     (updateCrab crab n).1 = Some crab'
     /\ Crab.state crab' = walking
     /\ Crab.x crab - 400 <= Crab.targetX crab' < Crab.x crab + 400
     /\ Crab.z crab - 200 <= Crab.targetZ crab' < Crab.z crab + 200)
  /\ (Crab.state crab = walking -> crabDist crab < 10 ->
      exists crab',
        (updateCrab crab n).1 = Some crab'
        /\ Crab.state crab' = idle
        /\ Crab.idleTimer crab' = (randomRange 50 200 n).1
        /\ 0 < Crab.idleTimer crab').
Proof.
  intros Hrand. split.
  - intros Hst Ht.
    destruct (updateCrab_idle crab n Hst Ht) as (crab' & Hu & Hw & Hx & Hz & _).
    exists crab'. rewrite Hx, Hz.
    pose proof (randomRange_bounds (-400) 400 n (Hrand n)) as Bx.
    pose proof (randomRange_bounds (-200) 200 (S n) (Hrand (S n))) as Bz.
    repeat split; try assumption; lra.
  - intros Hst Hd.
    destruct (updateCrab_arrival crab n Hst Hd) as (crab' & Hu & Hi & Ht & _).
    exists crab'. rewrite Ht.
    pose proof (randomRange_bounds 50 200 n (Hrand n)) as Bt.
    repeat split; try assumption; lra.
Qed.

(** The walking branch divides only when [dist >= 10]: a crab update always
    leaves finite coordinates. *)
Lemma updateCrab_finite (crab : Crab.t) (n : nat) :
  is_Some (updateCrab crab n).1.
Proof.
  unfold updateCrab. destruct (Crab.state crab).
  - destruct (leb _ _); cbn; eauto.
  - destruct (ltb _ 10) eqn:E; cbn; eauto.
    apply ltb_ge in E.
    rewrite !jsdiv_Some by (intros E0; rewrite E0 in E; lra). eauto.
Qed.

(** A crab at distance zero from its target does not move: idle it waits,
    walking it has arrived. *)
Lemma updateCrab_zero_distance (crab : Crab.t) (n : nat) :
  crabDist crab == 0 ->
  exists crab',
    (updateCrab crab n).1 = Some crab'
    /\ Crab.x crab' = Crab.x crab /\ Crab.y crab' = Crab.y crab
    /\ Crab.z crab' = Crab.z crab.
Proof.
  intros Hd. unfold updateCrab. destruct (Crab.state crab).
  - destruct (leb _ _); cbn; eauto.
  - assert (E : ltb (crabDist crab) 10 = true) by (apply ltb_lt; lra).
    unfold crabDist in E. rewrite E. cbn. eauto.
Qed.

(** A fish at distance zero from its target is moved all the same: the
    update divides by the distance and leaves no finite position. *)
Lemma updateFish_zero_distance (chunk : Chunk.t) (cam : Camera.t) (fish : Fish.t) (n : nat) :
  fishDist fish == 0 -> (updateFish chunk cam fish n).1 = None.
Proof.
  intros Hd. unfold updateFish, mbind, Rand_bind, Math_random.
  unfold fishDist in Hd.
  destruct (ltb _ 20); cbn; rewrite (jsdiv_zero _ _ Hd); reflexivity.
Qed.

(** Away from distance zero the fish update has a result. *)
Lemma updateFish_finite (chunk : Chunk.t) (cam : Camera.t) (fish : Fish.t) (n : nat) :
  ~ fishDist fish == 0 -> is_Some (updateFish chunk cam fish n).1.
Proof.
  intros Hd. unfold updateFish, mbind, Rand_bind, Math_random.
  unfold fishDist in Hd.
  destruct (ltb _ 20); cbn; rewrite !(jsdiv_Some _ _ Hd); eauto.
Qed.

End Agents.

Lemma crab_state_machine_witness :
  let crab := (@generateCrab sampleHost 0 0 0%nat).1 in
  exists crab',
    (@updateCrab sampleHost crab 8%nat).1 = Some crab'
    /\ Crab.state crab' = walking
    /\ Crab.x crab - 400 <= Crab.targetX crab' < Crab.x crab + 400
    /\ Crab.z crab - 200 <= Crab.targetZ crab' < Crab.z crab + 200.
Proof.
  apply (@crab_state_machine sampleHost
           (@generateCrab sampleHost 0 0 0%nat).1 8%nat).
  - intros k. split; vm_compute; [discriminate | reflexivity].
  - reflexivity.
  - vm_compute; discriminate.
Defined.

(** ** The fish step on doubles *)

(** C5 on the code: a fish that [generateChunk] creates with both target
    rolls equal to [0.5] starts exactly on its target, and on binary64
    the move of its first frame then sets [fish.x] and [fish.z] to NaN. *)
Theorem fish_on_target_moves_to_NaN :
  let x := 1500%float in
  let z := 4200%float in
  let speed := 6%float in
  let targetX := Binary64.initialTarget x 0.5 in
  let targetZ := Binary64.initialTarget z 0.5 in
  let moved := Binary64.fishMove 0 (-800) x z targetX targetZ speed in
  targetX = x /\ targetZ = z
  /\ PrimFloat.is_nan moved.1 = true
  /\ PrimFloat.is_nan moved.2 = true.
Proof. vm_compute. repeat split. Qed.

(** The same on the rational model, with the sample host: the first fish of
    chunk (0,0) starts on its target and its update has no finite
    result. *)
Lemma generated_fish_update_not_finite :
  let chunk := (@generateChunk sampleHost 0 0 0%nat).1 in
  exists fish rest,
    Chunk.fishes chunk = fish :: rest
    /\ Fish.targetX fish == Fish.x fish /\ Fish.targetZ fish == Fish.z fish
    /\ (@updateFish sampleHost chunk initialCamera fish 0%nat).1 = None.
Proof.
  eexists. eexists. split; [vm_compute; reflexivity|].
  vm_compute. repeat split.
Qed.

(** ** Array.prototype.sort *)

Lemma StronglySorted_weaken {A} (R R' : A -> A -> Prop) (l : list A) :
  (forall a b, R a b -> R' a b) -> StronglySorted R l -> StronglySorted R' l.
Proof.
  intros HR. induction 1 as [|a l Hl IH Ha]; constructor; [exact IH|].
  eapply Forall_impl; [exact Ha|]. intros b. apply HR.
Qed.

Section ArraySort.
Context {A : Type} (compare : A -> A -> number).

(** A consistent comparator: [a] may stand before [b] when
    [compare a b <= 0]; of two elements one may stand before the other,
    and "may stand before" is transitive. *)
Hypothesis compare_total : forall a b, 0 < compare a b -> compare b a <= 0.
Hypothesis compare_trans :
  forall a b c, compare a b <= 0 -> compare b c <= 0 -> compare a c <= 0.

Lemma insertSorted_Permutation (a : A) (l : list A) :
  Permutation (a :: l) (insertSorted compare a l).
Proof.
  induction l as [|b l IH]; cbn; [reflexivity|].
  destruct (gtb (compare a b) 0); [|reflexivity].
  rewrite perm_swap. now apply perm_skip.
Qed.

Lemma Array_sort_Permutation (l : list A) : Permutation l (Array_sort compare l).
Proof.
  induction l as [|a l IH]; cbn; [reflexivity|].
  rewrite <- insertSorted_Permutation. now apply perm_skip.
Qed.

Lemma insertSorted_StronglySorted (a : A) (l : list A) :
  StronglySorted (fun a b => compare a b <= 0) l ->
  StronglySorted (fun a b => compare a b <= 0) (insertSorted compare a l).
Proof.
  induction 1 as [|b l Hl IH Hb]; cbn.
  - repeat constructor.
  - destruct (gtb (compare a b) 0) eqn:E.
    + apply gtb_gt in E. constructor; [exact IH|].
      rewrite <- insertSorted_Permutation. constructor; [|exact Hb].
      apply compare_total, E.
    + apply gtb_le in E. constructor; [now constructor|].
      constructor; [exact E|].
      eapply Forall_impl; [exact Hb|]. intros c Hc. eapply compare_trans; eauto.
Qed.

Lemma Array_sort_StronglySorted (l : list A) :
  StronglySorted (fun a b => compare a b <= 0) (Array_sort compare l).
Proof.
  induction l as [|a l IH]; cbn; [constructor|].
  now apply insertSorted_StronglySorted.
Qed.

End ArraySort.

(** ** Render queue *)

Section RenderQueue.
Context `{Host} {D : Type}.
Implicit Types (cam : Camera.t) (s : Submission.t D) (q : list (RenderItem.t D)).

Lemma sortQueue_Permutation q : Permutation q (sortQueue q).
Proof. apply Array_sort_Permutation. Qed.

Lemma sortQueue_farthestFirst q : farthestFirst (sortQueue q).
Proof.
  unfold farthestFirst, sortQueue.
  eapply StronglySorted_weaken;
    [|apply (Array_sort_StronglySorted (fun a b => RenderItem.z b - RenderItem.z a))].
  - intros a b Hab. cbn in Hab. lra.
  - intros a b Hab. lra.
  - intros a b c Hab Hbc. lra.
Qed.

Lemma pushRenderItem_culled cam fogDensity centerX centerY q s :
  relativeZ cam s < 1 \/ VISIBILITY_DEPTH < relativeZ cam s ->
  pushRenderItem cam fogDensity centerX centerY q
    (Submission.itemX s) (Submission.itemY s) (Submission.itemZ s)
    (Submission.drawFn s) = q.
Proof.
  intros Hcull. unfold pushRenderItem. fold (relativeZ cam s).
  destruct Hcull as [Hc|Hc].
  - apply ltb_lt in Hc. now rewrite Hc.
  - apply gtb_gt in Hc. rewrite Hc. now rewrite orb_true_r.
Qed.

Lemma pushRenderItem_kept cam fogDensity centerX centerY q s :
  1 <= relativeZ cam s <= VISIBILITY_DEPTH ->
  exists item,
    pushRenderItem cam fogDensity centerX centerY q
      (Submission.itemX s) (Submission.itemY s) (Submission.itemZ s)
      (Submission.drawFn s) = q ++ [item]
    /\ RenderItem.z item = relativeZ cam s
    /\ DrawCall.drawFn (RenderItem.draw item tt) = Submission.drawFn s.
Proof.
  intros [Hlo Hhi]. unfold pushRenderItem. fold (relativeZ cam s).
  apply ltb_ge in Hlo. apply gtb_le in Hhi. rewrite Hlo, Hhi. cbn [orb].
  eexists. split; [reflexivity|]. split; reflexivity.
Qed.

(** Whatever is in the queue passed the cull. *)
Lemma pushRenderItem_bounds cam fogDensity centerX centerY q s :
  Forall (fun item => 1 <= RenderItem.z item <= VISIBILITY_DEPTH) q ->
  Forall (fun item => 1 <= RenderItem.z item <= VISIBILITY_DEPTH)
    (pushRenderItem cam fogDensity centerX centerY q
       (Submission.itemX s) (Submission.itemY s) (Submission.itemZ s)
       (Submission.drawFn s)).
Proof.
  intros Hq. unfold pushRenderItem.
  destruct (ltb _ 1) eqn:E1; [exact Hq|].
  destruct (gtb _ VISIBILITY_DEPTH) eqn:E2; [exact Hq|]. cbn [orb].
  apply ltb_ge in E1. apply gtb_le in E2.
  apply Forall_app. split; [exact Hq|]. repeat constructor; assumption.
Qed.

Lemma submitAll_bounds cam fogDensity centerX centerY (subs : list (Submission.t D)) :
  Forall (fun item => 1 <= RenderItem.z item <= VISIBILITY_DEPTH)
    (submitAll cam fogDensity centerX centerY subs).
Proof.
  unfold submitAll.
  assert (G : forall q,
    Forall (fun item => 1 <= RenderItem.z item <= VISIBILITY_DEPTH) q ->
    Forall (fun item => 1 <= RenderItem.z item <= VISIBILITY_DEPTH)
      (fold_left (fun q s =>
         pushRenderItem cam fogDensity centerX centerY q
           (Submission.itemX s) (Submission.itemY s) (Submission.itemZ s)
           (Submission.drawFn s)) subs q)).
  { induction subs as [|s subs IH]; intros q Hq; cbn; [exact Hq|].
    apply IH. now apply pushRenderItem_bounds. }
  apply G. constructor.
Qed.

(** C2: a submission whose [relativeZ = worldZ - cam.z] is below 1 or
    above [VISIBILITY_DEPTH] leaves the queue as it was; the queue and the
    draw calls of the frame are those of the frame without it, and every
    item that is executed has its [z] between 1 and [VISIBILITY_DEPTH]. *)
Theorem render_queue_culling cam (fogDensity centerX centerY : number)
    (earlier later : list (Submission.t D)) s :
  relativeZ cam s < 1 \/ VISIBILITY_DEPTH < relativeZ cam s ->
  (forall q,
     pushRenderItem cam fogDensity centerX centerY q
       (Submission.itemX s) (Submission.itemY s) (Submission.itemZ s)
       (Submission.drawFn s) = q)
  /\ submitAll cam fogDensity centerX centerY (earlier ++ s :: later)
     = submitAll cam fogDensity centerX centerY (earlier ++ later)
  /\ renderFrame cam fogDensity centerX centerY (earlier ++ s :: later)
     = renderFrame cam fogDensity centerX centerY (earlier ++ later)
  /\ Forall (fun item => 1 <= RenderItem.z item <= VISIBILITY_DEPTH)
       (sortQueue (submitAll cam fogDensity centerX centerY (earlier ++ s :: later))).
Proof.
  intros Hcull.
  assert (Hq : submitAll cam fogDensity centerX centerY (earlier ++ s :: later)
               = submitAll cam fogDensity centerX centerY (earlier ++ later)).
  { unfold submitAll. rewrite !fold_left_app. cbn [fold_left].
    now rewrite pushRenderItem_culled. }
  split; [intros q; now apply pushRenderItem_culled|].
  split; [exact Hq|]. split.
  - unfold renderFrame. now rewrite Hq.
  - rewrite <- sortQueue_Permutation. apply submitAll_bounds.
Qed.

End RenderQueue.

Lemma render_queue_culling_witness :
  let frame := @renderFrame sampleHost string initialCamera 1 640 360 in
  let near := sampleSubmission (-799.5) "near" in
  let far := sampleSubmission 2701 "far" in
  let a := sampleSubmission 0 "a" in
  let b := sampleSubmission 100 "b" in
  relativeZ initialCamera near == 0.5
  /\ relativeZ initialCamera far == VISIBILITY_DEPTH + 1
  /\ frame [a; near; b] = frame [a; b]
  /\ frame [a; far; b] = frame [a; b].
Proof.
  split; [reflexivity|]. split; [reflexivity|]. split.
  - apply (@render_queue_culling sampleHost string initialCamera 1 640 360
             [sampleSubmission 0 "a"] [sampleSubmission 100 "b"]
             (sampleSubmission (-799.5) "near")).
    left. vm_compute. reflexivity.
  - apply (@render_queue_culling sampleHost string initialCamera 1 640 360
             [sampleSubmission 0 "a"] [sampleSubmission 100 "b"]
             (sampleSubmission 2701 "far")).
    right. vm_compute. reflexivity.
Defined.

Section RenderOrder.
Context `{Host} {D : Type}.

(** C3: the queue of a frame is executed in the order [sortQueue] gives
    it, which holds the same items farthest first (descending [z]); three
    submissions that survive the cull with [relativeZ] 50, 10 and 200 are
    drawn in the order 200, 50, 10. *)
Theorem render_queue_ordering (cam : Camera.t) (fogDensity centerX centerY : number) :
  (forall subs : list (Submission.t D),
     let q := submitAll cam fogDensity centerX centerY subs in
     farthestFirst (sortQueue q)
     /\ Permutation q (sortQueue q)
     /\ renderFrame cam fogDensity centerX centerY subs
        = map (fun item => RenderItem.draw item tt) (sortQueue q))
  /\ (forall s1 s2 s3 : Submission.t D,
        relativeZ cam s1 == 50 -> relativeZ cam s2 == 10 ->
        relativeZ cam s3 == 200 ->
        let q := submitAll cam fogDensity centerX centerY [s1; s2; s3] in
        map RenderItem.z (sortQueue q)
          = [relativeZ cam s3; relativeZ cam s1; relativeZ cam s2]
        /\ map DrawCall.drawFn (renderFrame cam fogDensity centerX centerY [s1; s2; s3])
           = [Submission.drawFn s3; Submission.drawFn s1; Submission.drawFn s2]).
Proof.
  split.
  - intros subs q. split; [apply sortQueue_farthestFirst|].
    split; [apply sortQueue_Permutation | reflexivity].
  - intros s1 s2 s3 H1 H2 H3 q. subst q.
    unfold renderFrame, executeQueue, submitAll. cbn [fold_left].
    destruct (pushRenderItem_kept cam fogDensity centerX centerY [] s1)
      as (i1 & -> & Hz1 & Hf1); [unfold VISIBILITY_DEPTH; lra|].
    destruct (pushRenderItem_kept cam fogDensity centerX centerY ([] ++ [i1]) s2)
      as (i2 & -> & Hz2 & Hf2); [unfold VISIBILITY_DEPTH; lra|].
    destruct (pushRenderItem_kept cam fogDensity centerX centerY
                (([] ++ [i1]) ++ [i2]) s3)
      as (i3 & -> & Hz3 & Hf3); [unfold VISIBILITY_DEPTH; lra|].
    assert (E32 : gtb (RenderItem.z i3 - RenderItem.z i2) 0 = true)
      by (rewrite Hz3, Hz2; apply gtb_gt; lra).
    assert (E31 : gtb (RenderItem.z i3 - RenderItem.z i1) 0 = true)
      by (rewrite Hz3, Hz1; apply gtb_gt; lra).
    assert (E21 : gtb (RenderItem.z i2 - RenderItem.z i1) 0 = false)
      by (rewrite Hz2, Hz1; apply gtb_le; lra).
    unfold sortQueue, Array_sort. cbn [app foldr insertSorted].
    rewrite E32. cbn [insertSorted]. rewrite E31, E21.
    cbn [map]. rewrite Hz1, Hz2, Hz3, Hf1, Hf2, Hf3. split; reflexivity.
Qed.

End RenderOrder.

Lemma render_queue_ordering_witness :
  map DrawCall.drawFn
    (@renderFrame sampleHost string initialCamera 1 640 360
       [sampleSubmission (-750) "fifty"; sampleSubmission (-790) "ten";
        sampleSubmission (-600) "two hundred"])
  = ["two hundred"; "fifty"; "ten"].
Proof.
  apply (proj2 (@render_queue_ordering sampleHost string initialCamera 1 640 360)
           (sampleSubmission (-750) "fifty") (sampleSubmission (-790) "ten")
           (sampleSubmission (-600) "two hundred"));
    vm_compute; reflexivity.
Defined.

(** ** Chunk keys *)

Lemma pretty_N_go_noComma (x : N) (s : string) :
  noComma s = true -> noComma (pretty_N_go x s) = true.
Proof.
  revert s. induction (N.lt_wf_0 x) as [x _ IH]; intros s Hs.
  destruct (decide (x = 0%N)) as [->|Hx]; [exact Hs|].
  rewrite pretty_N_go_step by lia.
  apply IH; [apply N.div_lt; lia|].
  cbn [noComma]. rewrite Hs, andb_true_r.
  unfold pretty_N_char. repeat case_match; reflexivity.
Qed.

Lemma pretty_Z_noComma (x : Z) : noComma (pretty x) = true.
Proof.
  destruct x as [|p|p]; [reflexivity| |];
    unfold pretty, pretty_Z, pretty, pretty_positive, pretty, pretty_N;
    [|cbn [String.append noComma Ascii.eqb]];
    case_decide; try reflexivity; now apply pretty_N_go_noComma.
Qed.

Lemma append_nil (s : string) : "" +:+ s = s.
Proof. reflexivity. Qed.

Lemma append_cons (c : ascii) (a s : string) : String c a +:+ s = String c (a +:+ s).
Proof. reflexivity. Qed.

Lemma append_comma_inj (a a' b b' : string) :
  noComma a = true -> noComma a' = true ->
  a +:+ "," +:+ b = a' +:+ "," +:+ b' -> a = a' /\ b = b'.
Proof.
  revert a'. induction a as [|c a IH]; intros [|c' a'] Ha Ha' E;
    repeat (rewrite append_nil in E || rewrite append_cons in E);
    cbn [noComma] in *.
  - split; [reflexivity | congruence].
  - injection E as <- _. discriminate.
  - injection E as -> _. discriminate.
  - injection E as -> E.
    apply andb_true_iff in Ha as [_ Ha]. apply andb_true_iff in Ha' as [_ Ha'].
    destruct (IH a' Ha Ha' E) as [-> ->]. split; reflexivity.
Qed.

(** Two cells with the same key are the same cell. *)
Lemma chunkKey_inj (x z x' z' : Z) :
  chunkKey x z = chunkKey x' z' -> x = x' /\ z = z'.
Proof.
  unfold chunkKey. intros E.
  apply append_comma_inj in E as [Ex Ez]; try apply pretty_Z_noComma.
  split; eapply pretty_Z_inj; eassumption.
Qed.

(** ** Chunk store *)

Section ChunkStore.
Context `{Host}.
Implicit Types (m : gmap string Chunk.t) (cell : Z * Z) (n : nat).

Lemma neededCells_spec (cx cz x z : Z) :
  (x, z) ∈ neededCells cx cz <->
  (cx - RENDER_DISTANCE_CHUNKS <= x <= cx + RENDER_DISTANCE_CHUNKS
   /\ cz - RENDER_DISTANCE_CHUNKS <= z <= cz + RENDER_DISTANCE_CHUNKS)%Z.
Proof.
  unfold neededCells, RENDER_DISTANCE_CHUNKS. rewrite list_elem_of_bind. split.
  - intros (x' & Hz & Hx). apply list_elem_of_bind in Hz as (z' & Hxz & Hz).
    apply list_elem_of_singleton in Hxz. injection Hxz as -> ->.
    apply elem_of_seqZ in Hx, Hz. lia.
  - intros [Hx Hz]. exists x. split; [|apply elem_of_seqZ; lia].
    apply list_elem_of_bind. exists z. split; [|apply elem_of_seqZ; lia].
    now apply list_elem_of_singleton.
Qed.

(** One pass of the loop body: what was stored stays, nothing else than
    the chunk of [cell] comes in. *)
Lemma ensureChunk_old m cell n k c :
  m !! k = Some c -> (ensureChunk m cell n).1 !! k = Some c.
Proof.
  intros Hk. unfold ensureChunk.
  destruct (m !! chunkKey cell.1 cell.2) eqn:E; [exact Hk|].
  unfold mbind, Rand_bind. destruct (generateChunk cell.1 cell.2 n) as [c' n'].
  cbn. rewrite lookup_insert_ne; [exact Hk|]. intros <-. congruence.
Qed.

Lemma ensureChunk_inv m cell n k c :
  (ensureChunk m cell n).1 !! k = Some c ->
  m !! k = Some c
  \/ (k = chunkKey cell.1 cell.2 /\ m !! k = None
      /\ Chunk.xIndex c = cell.1 /\ Chunk.zIndex c = cell.2).
Proof.
  unfold ensureChunk.
  destruct (m !! chunkKey cell.1 cell.2) eqn:E; [now left|].
  unfold mbind, Rand_bind.
  pose proof (generateChunk_index cell.1 cell.2 n) as (Hx & Hz & _).
  destruct (generateChunk cell.1 cell.2 n) as [c' n']. cbn in *.
  destruct (decide (chunkKey cell.1 cell.2 = k)) as [<-|Hne].
  - rewrite lookup_insert_eq. intros [= <-]. right. auto.
  - rewrite lookup_insert_ne by exact Hne. now left.
Qed.

Lemma ensureChunk_present m cell n :
  is_Some ((ensureChunk m cell n).1 !! chunkKey cell.1 cell.2).
Proof.
  unfold ensureChunk.
  destruct (m !! chunkKey cell.1 cell.2) eqn:E; [cbn; rewrite E; eauto|].
  unfold mbind, Rand_bind. destruct (generateChunk cell.1 cell.2 n) as [c' n'].
  cbn. rewrite lookup_insert_eq. eauto.
Qed.

(** The generation loops. *)
Lemma generate_old (cells : list (Z * Z)) m n k c :
  m !! k = Some c -> (foldM ensureChunk m cells n).1 !! k = Some c.
Proof.
  revert m n. induction cells as [|cell cells IH]; intros m n Hk; [exact Hk|].
  cbn [foldM]. unfold mbind, Rand_bind.
  pose proof (ensureChunk_old m cell n k c Hk) as Hk'.
  destruct (ensureChunk m cell n) as [m' n']. now apply IH.
Qed.

Lemma generate_inv (cells : list (Z * Z)) m n k c :
  (foldM ensureChunk m cells n).1 !! k = Some c ->
  m !! k = Some c
  \/ (m !! k = None /\
      exists cell, cell ∈ cells /\ k = chunkKey cell.1 cell.2
                   /\ Chunk.xIndex c = cell.1 /\ Chunk.zIndex c = cell.2).
Proof.
  revert m n. induction cells as [|cell cells IH]; intros m n; [now left|].
  cbn [foldM]. unfold mbind, Rand_bind.
  pose proof (ensureChunk_inv m cell n k c) as Hinv.
  pose proof (fun c' => ensureChunk_old m cell n k c') as Hold.
  destruct (ensureChunk m cell n) as [m' n']. cbn [fst] in *.
  intros Hk. apply IH in Hk as [Hk|(Hnone & cell' & Hin & Hrest)].
  - apply Hinv in Hk as [Hk|(-> & Hnone & Hx & Hz)]; [now left|].
    right. split; [exact Hnone|]. exists cell. split; [left|]. auto.
  - right. split.
    + destruct (m !! k) as [c'|] eqn:E; [|reflexivity].
      rewrite (Hold c' eq_refl) in Hnone. discriminate.
    + exists cell'. split; [now right | exact Hrest].
Qed.

Lemma generate_present (cells : list (Z * Z)) m n cell :
  cell ∈ cells -> is_Some ((foldM ensureChunk m cells n).1 !! chunkKey cell.1 cell.2).
Proof.
  revert m n. induction cells as [|cell' cells IH]; intros m n Hin.
  - inversion Hin.
  - cbn [foldM]. unfold mbind, Rand_bind.
    pose proof (ensureChunk_present m cell' n) as Hp.
    destruct (ensureChunk m cell' n) as [m' n'] eqn:E. cbn [fst] in Hp.
    apply elem_of_cons in Hin as [->|Hin]; [|now apply IH].
    destruct Hp as [c Hc]. exists c. now apply generate_old.
Qed.

Lemma generate_keyedByIndex (cells : list (Z * Z)) m n :
  keyedByIndex m -> keyedByIndex (foldM ensureChunk m cells n).1.
Proof.
  intros Hm k c Hk.
  apply generate_inv in Hk as [Hk|(_ & cell & _ & -> & -> & ->)];
    [now apply Hm | reflexivity].
Qed.

Lemma pruneChunks_lookup (cx cz : Z) m k c :
  pruneChunks cx cz m !! k = Some c <->
  m !! k = Some c /\ (chunkDist cx cz c <= RENDER_DISTANCE_CHUNKS + 1)%Z.
Proof.
  unfold pruneChunks. rewrite map_lookup_filter_Some. cbn. intuition lia.
Qed.

Lemma pruneChunks_keyedByIndex (cx cz : Z) m :
  keyedByIndex m -> keyedByIndex (pruneChunks cx cz m).
Proof.
  intros Hm k c Hk. apply pruneChunks_lookup in Hk as [Hk _]. now apply Hm.
Qed.

(** [manageChunks] when the camera is in the cell of the last check, and
    when it is not. *)
Lemma manageChunks_same_cell (cam : Camera.t) (st : Store.t) n :
  cameraCell cam = (Store.lastChunkCheckX st, Store.lastChunkCheckZ st) ->
  manageChunks cam st n = (st, n).
Proof.
  intros E. unfold manageChunks. rewrite E. cbn [fst snd].
  now rewrite !Z.eqb_refl.
Qed.

Lemma manageChunks_new_cell (cam : Camera.t) (st : Store.t) n :
  cameraCell cam <> (Store.lastChunkCheckX st, Store.lastChunkCheckZ st) ->
  let cx := (cameraCell cam).1 in
  let cz := (cameraCell cam).2 in
  (manageChunks cam st n).1 =
    {| Store.chunks :=
         pruneChunks cx cz (foldM ensureChunk (Store.chunks st) (neededCells cx cz) n).1;
       Store.lastChunkCheckX := cx; Store.lastChunkCheckZ := cz |}.
Proof.
  intros Hne cx cz. unfold manageChunks. fold cx cz.
  destruct ((cx =? _)%Z && (cz =? _)%Z) eqn:E.
  - apply andb_true_iff in E as [Ex%Z.eqb_eq Ez%Z.eqb_eq].
    exfalso. apply Hne. subst cx cz. destruct (cameraCell cam). cbn in *. congruence.
  - unfold mbind, Rand_bind. destruct (foldM _ _ _ n) as [m n']. reflexivity.
Qed.

(** After [manageChunks] the last-checked cell is the camera's. *)
Lemma manageChunks_lastChunkCheck (cam : Camera.t) (st : Store.t) n :
  let st' := (manageChunks cam st n).1 in
  (Store.lastChunkCheckX st', Store.lastChunkCheckZ st') = cameraCell cam.
Proof.
  cbv zeta.
  destruct (decide (cameraCell cam
                    = (Store.lastChunkCheckX st, Store.lastChunkCheckZ st))) as [E|E].
  - rewrite manageChunks_same_cell by exact E. cbn [fst]. now rewrite E.
  - rewrite manageChunks_new_cell by exact E.
    cbn [Store.lastChunkCheckX Store.lastChunkCheckZ].
    destruct (cameraCell cam); reflexivity.
Qed.

Lemma manageChunks_keyedByIndex (cam : Camera.t) (st : Store.t) n :
  keyedByIndex (Store.chunks st) ->
  keyedByIndex (Store.chunks (manageChunks cam st n).1).
Proof.
  intros Hst.
  destruct (decide (cameraCell cam
                    = (Store.lastChunkCheckX st, Store.lastChunkCheckZ st))) as [E|E].
  - now rewrite manageChunks_same_cell by exact E.
  - rewrite manageChunks_new_cell by exact E. cbn.
    now apply pruneChunks_keyedByIndex, generate_keyedByIndex.
Qed.

(** The streaming rule.  When the camera has changed cell, the cells
    stored afterwards are those that were stored or lie in the square of
    radius [RENDER_DISTANCE_CHUNKS] around the camera cell, and that are
    within [RENDER_DISTANCE_CHUNKS + 1] of it. *)
Lemma manageChunks_stored (cam : Camera.t) (st : Store.t) n (x z : Z) :
  keyedByIndex (Store.chunks st) ->
  cameraCell cam <> (Store.lastChunkCheckX st, Store.lastChunkCheckZ st) ->
  let cx := (cameraCell cam).1 in
  let cz := (cameraCell cam).2 in
  stored (Store.chunks (manageChunks cam st n).1) x z <->
  (stored (Store.chunks st) x z
   \/ (Z.abs (x - cx) <= RENDER_DISTANCE_CHUNKS
       /\ Z.abs (z - cz) <= RENDER_DISTANCE_CHUNKS))%Z
  /\ (Z.max (Z.abs (x - cx)) (Z.abs (z - cz)) <= RENDER_DISTANCE_CHUNKS + 1)%Z.
Proof.
  intros Hst Hne cx cz. rewrite manageChunks_new_cell by exact Hne.
  fold cx cz. cbn [Store.chunks]. unfold stored.
  pose proof (generate_keyedByIndex (neededCells cx cz) _ n Hst) as Hgen.
  split.
  - intros [c Hc]. apply pruneChunks_lookup in Hc as [Hc Hd].
    pose proof (Hgen _ _ Hc) as Hkey. apply chunkKey_inj in Hkey as [Hx Hz].
    unfold chunkDist in Hd. rewrite <- Hx, <- Hz in Hd. split; [|exact Hd].
    apply generate_inv in Hc as [Hc|(_ & [x' z'] & Hin & Hk & _)].
    + left. eauto.
    + right. apply chunkKey_inj in Hk as [-> ->].
      apply neededCells_spec in Hin. cbn [fst snd]. lia.
  - intros [Hsrc Hd].
    assert (Hc : is_Some ((foldM ensureChunk (Store.chunks st)
                             (neededCells cx cz) n).1 !! chunkKey x z)).
    { destruct Hsrc as [[c Hc]|Hsq].
      - exists c. now apply generate_old.
      - apply (generate_present _ _ _ (x, z)). apply neededCells_spec. lia. }
    destruct Hc as [c Hc]. exists c. apply pruneChunks_lookup. split; [exact Hc|].
    pose proof (Hgen _ _ Hc) as Hkey. apply chunkKey_inj in Hkey as [Hx Hz].
    unfold chunkDist. now rewrite <- Hx, <- Hz.
Qed.

(** A stored chunk within [RENDER_DISTANCE_CHUNKS + 1] of the camera cell
    is kept as it is. *)
Lemma manageChunks_retains (cam : Camera.t) (st : Store.t) n k c :
  Store.chunks st !! k = Some c ->
  (chunkDist (cameraCell cam).1 (cameraCell cam).2 c <= RENDER_DISTANCE_CHUNKS + 1)%Z ->
  Store.chunks (manageChunks cam st n).1 !! k = Some c.
Proof.
  intros Hk Hd.
  destruct (decide (cameraCell cam
                    = (Store.lastChunkCheckX st, Store.lastChunkCheckZ st))) as [E|E].
  - now rewrite manageChunks_same_cell by exact E.
  - rewrite manageChunks_new_cell by exact E. cbn.
    apply pruneChunks_lookup. split; [now apply generate_old | exact Hd].
Qed.

(** After a triggered [manageChunks] no chunk is farther than
    [RENDER_DISTANCE_CHUNKS + 1] from the camera cell. *)
Lemma manageChunks_evicts (cam : Camera.t) (st : Store.t) n k c :
  cameraCell cam <> (Store.lastChunkCheckX st, Store.lastChunkCheckZ st) ->
  Store.chunks (manageChunks cam st n).1 !! k = Some c ->
  (chunkDist (cameraCell cam).1 (cameraCell cam).2 c <= RENDER_DISTANCE_CHUNKS + 1)%Z.
Proof.
  intros E. rewrite manageChunks_new_cell by exact E. cbn.
  intros Hk. now apply pruneChunks_lookup in Hk.
Qed.

Lemma manageChunks_new_cell_tape (cam : Camera.t) (st : Store.t) n :
  cameraCell cam <> (Store.lastChunkCheckX st, Store.lastChunkCheckZ st) ->
  (manageChunks cam st n).2 =
    (foldM ensureChunk (Store.chunks st)
       (neededCells (cameraCell cam).1 (cameraCell cam).2) n).2.
Proof.
  intros Hne. unfold manageChunks.
  destruct ((_ =? _)%Z && (_ =? _)%Z) eqn:E.
  - apply andb_true_iff in E as [Ex%Z.eqb_eq Ez%Z.eqb_eq].
    exfalso. apply Hne. destruct (cameraCell cam). cbn in *. congruence.
  - unfold mbind, Rand_bind. destruct (foldM _ _ _ n) as [m n']. reflexivity.
Qed.

(** When every needed cell is stored, the generation loops generate
    nothing and leave the tape where it is. *)
Lemma generate_nothing (cells : list (Z * Z)) m n :
  (forall cell, cell ∈ cells -> is_Some (m !! chunkKey cell.1 cell.2)) ->
  foldM ensureChunk m cells n = (m, n).
Proof.
  induction cells as [|cell cells IH]; intros Hall; [reflexivity|].
  cbn [foldM]. unfold mbind, Rand_bind.
  assert (E : ensureChunk m cell n = (m, n)).
  { unfold ensureChunk. destruct (Hall cell) as [c ->]; [left | reflexivity]. }
  rewrite E. apply IH. intros cell' Hin. apply Hall. now right.
Qed.

(** X10: the edge trigger is an economy, not a need: were the last-checked
    cell forgotten after a triggered [manageChunks], running it again from
    the same cell would still generate nothing and evict nothing. *)
Lemma manageChunks_rerun (cam cam' : Camera.t) (st : Store.t) n (lastX lastZ : Z) :
  keyedByIndex (Store.chunks st) ->
  cameraCell cam <> (Store.lastChunkCheckX st, Store.lastChunkCheckZ st) ->
  cameraCell cam' = cameraCell cam ->
  let first := manageChunks cam st n in
  let forgotten :=
    {| Store.chunks := Store.chunks first.1;
       Store.lastChunkCheckX := lastX; Store.lastChunkCheckZ := lastZ |} in
  Store.chunks (manageChunks cam' forgotten first.2).1 = Store.chunks first.1
  /\ (manageChunks cam' forgotten first.2).2 = first.2.
Proof.
  intros Hst Hne Hcell first forgotten.
  destruct (decide (cameraCell cam' = (lastX, lastZ))) as [E|E].
  { rewrite manageChunks_same_cell by exact E. split; reflexivity. }
  assert (Hgen : foldM ensureChunk (Store.chunks first.1)
                   (neededCells (cameraCell cam').1 (cameraCell cam').2) first.2
                 = (Store.chunks first.1, first.2)).
  { apply generate_nothing. intros [x z] Hin. rewrite Hcell in Hin.
    apply neededCells_spec in Hin. cbn [fst snd].
    apply (manageChunks_stored cam st n x z Hst Hne).
    unfold RENDER_DISTANCE_CHUNKS in *. split; [right|]; lia. }
  split.
  - rewrite manageChunks_new_cell by exact E. cbn [Store.chunks forgotten].
    rewrite Hgen. cbn [fst]. unfold pruneChunks. apply map_filter_id.
    intros k c Hk. cbn [snd]. rewrite Hcell.
    pose proof (manageChunks_evicts cam st n k c Hne Hk). lia.
  - rewrite manageChunks_new_cell_tape by exact E. cbn [Store.chunks forgotten].
    now rewrite Hgen.
Qed.

Lemma keyedByIndex_empty : keyedByIndex ∅.
Proof. intros k c Hk. rewrite lookup_empty in Hk. discriminate. Qed.

End ChunkStore.

(** ** Chunk store: the two scenarios *)

Lemma cellBlock_spec (x0 nx z0 nz x z : Z) :
  (x, z) ∈ cellBlock x0 nx z0 nz <-> (x0 <= x < x0 + nx /\ z0 <= z < z0 + nz)%Z.
Proof.
  unfold cellBlock. rewrite list_elem_of_bind. split.
  - intros (x' & Hz & Hx). apply list_elem_of_bind in Hz as (z' & Hxz & Hz).
    apply list_elem_of_singleton in Hxz. injection Hxz as -> ->.
    apply elem_of_seqZ in Hx, Hz. lia.
  - intros [Hx Hz]. exists x. split; [|apply elem_of_seqZ; lia].
    apply list_elem_of_bind. exists z. split; [|apply elem_of_seqZ; lia].
    now apply list_elem_of_singleton.
Qed.

(** A store keyed by index whose stored cells are [cells] has exactly
    their keys. *)
Lemma dom_cellKeys (m : gmap string Chunk.t) (cells : list (Z * Z)) :
  keyedByIndex m ->
  (forall x z, stored m x z <-> (x, z) ∈ cells) ->
  dom m = cellKeys cells.
Proof.
  intros Hm Hcells. apply set_eq. intros k.
  unfold cellKeys. rewrite elem_of_dom, elem_of_list_to_set, list_elem_of_fmap.
  split.
  - intros [c Hc]. exists (Chunk.xIndex c, Chunk.zIndex c).
    pose proof (Hm k c Hc) as Hk. split; [exact Hk|].
    apply Hcells. unfold stored. rewrite <- Hk. eauto.
  - intros ([x z] & -> & Hin). now apply Hcells.
Qed.

Section Scenarios.
Context `{Host}.

(** C7: a second [manageChunks] with the camera in the same cell as at the
    first one changes nothing: the store (the map and the last-checked
    cell) is the same, and [Math.random] has not been called, so no chunk
    was generated and none evicted. *)
Theorem manageChunks_idempotent (cam cam' : Camera.t) (st : Store.t) (n : nat) :
  cameraCell cam' = cameraCell cam ->
  let first := manageChunks cam st n in
  manageChunks cam' first.1 first.2 = first
  /\ Store.chunks (manageChunks cam' first.1 first.2).1 = Store.chunks first.1.
Proof.
  intros Hcell first.
  assert (E : manageChunks cam' first.1 first.2 = first).
  { rewrite manageChunks_same_cell; [now destruct first|].
    subst first. rewrite Hcell. symmetry. apply manageChunks_lastChunkCheck. }
  split; [exact E | now rewrite E].
Qed.

(** C1: from the empty store, [manageChunks] with the camera in cell
    (0,0) stores exactly the nine cells of [{-1,0,1} x {-1,0,1}]; a
    following [manageChunks] with the camera in cell (1,0) keeps every
    stored chunk within distance 2 of (1,0), adds exactly the three cells
    [x = 2], [z] in [{-1,0,1}], and leaves no chunk farther than 2 from
    (1,0). *)
Theorem chunk_store_sync (cam0 cam1 : Camera.t) (n : nat) :
  cameraCell cam0 = (0, 0)%Z -> cameraCell cam1 = (1, 0)%Z ->
  let first := manageChunks cam0 initialStore n in
  let st1 := first.1 in
  let st2 := (manageChunks cam1 st1 first.2).1 in
  (forall x z, stored (Store.chunks st1) x z <-> (-1 <= x <= 1 /\ -1 <= z <= 1)%Z)
  /\ dom (Store.chunks st1)
     = {[ "-1,-1"; "-1,0"; "-1,1"; "0,-1"; "0,0"; "0,1"; "1,-1"; "1,0"; "1,1" ]}
  /\ (forall k c, Store.chunks st1 !! k = Some c ->
                 (chunkDist 1 0 c <= 2)%Z -> Store.chunks st2 !! k = Some c)
  /\ (forall x z, stored (Store.chunks st2) x z /\ ~ stored (Store.chunks st1) x z
                  <-> (x = 2 /\ -1 <= z <= 1)%Z)
  /\ dom (Store.chunks st2) ∖ dom (Store.chunks st1) = {[ "2,-1"; "2,0"; "2,1" ]}
  /\ (forall k c, Store.chunks st2 !! k = Some c -> (chunkDist 1 0 c <= 2)%Z).
Proof.
  intros Hc0 Hc1 first st1 st2.
  assert (Hne0 : cameraCell cam0 <>
                 (Store.lastChunkCheckX initialStore, Store.lastChunkCheckZ initialStore))
    by (rewrite Hc0; discriminate).
  assert (Hk1 : keyedByIndex (Store.chunks st1))
    by (apply manageChunks_keyedByIndex, keyedByIndex_empty).
  assert (Hne1 : cameraCell cam1 <>
                 (Store.lastChunkCheckX st1, Store.lastChunkCheckZ st1)).
  { subst st1 first. rewrite manageChunks_lastChunkCheck, Hc0, Hc1. discriminate. }
  assert (Hk2 : keyedByIndex (Store.chunks st2))
    by (apply manageChunks_keyedByIndex, Hk1).
  assert (Hs1 : forall x z,
    stored (Store.chunks st1) x z <-> (-1 <= x <= 1 /\ -1 <= z <= 1)%Z).
  { intros x z. subst st1 first.
    rewrite (manageChunks_stored cam0 initialStore n x z keyedByIndex_empty Hne0).
    rewrite Hc0. cbn [fst snd]. unfold RENDER_DISTANCE_CHUNKS, stored, initialStore.
    cbn [Store.chunks]. rewrite lookup_empty. split.
    - intros [[[c Hc]|Hsq] _]; [discriminate | lia].
    - intros Hsq. split; [right|]; lia. }
  assert (Hs2 : forall x z,
    stored (Store.chunks st2) x z <-> (-1 <= x <= 2 /\ -1 <= z <= 1)%Z).
  { intros x z. subst st2.
    rewrite (manageChunks_stored cam1 st1 first.2 x z Hk1 Hne1).
    rewrite Hc1, Hs1. cbn [fst snd]. unfold RENDER_DISTANCE_CHUNKS. lia. }
  assert (Hd1 : dom (Store.chunks st1) = cellKeys (cellBlock (-1) 3 (-1) 3)).
  { apply dom_cellKeys; [exact Hk1|]. intros x z.
    rewrite Hs1, cellBlock_spec. lia. }
  assert (Hd2 : dom (Store.chunks st2) = cellKeys (cellBlock (-1) 4 (-1) 3)).
  { apply dom_cellKeys; [exact Hk2|]. intros x z.
    rewrite Hs2, cellBlock_spec. lia. }
  split; [exact Hs1|]. split; [rewrite Hd1; vm_compute; reflexivity|].
  split.
  { intros k c Hk Hd. subst st2. apply manageChunks_retains; [exact Hk|].
    rewrite Hc1. exact Hd. }
  split; [intros x z; rewrite Hs1, Hs2; lia|].
  split; [rewrite Hd1, Hd2; vm_compute; reflexivity|].
  intros k c Hk. subst st2.
  pose proof (manageChunks_evicts cam1 st1 first.2 k c Hne1 Hk) as Hd.
  rewrite Hc1 in Hd. exact Hd.
Qed.

End Scenarios.

Lemma manageChunks_idempotent_witness :
  let first := @manageChunks sampleHost initialCamera initialStore 0%nat in
  @manageChunks sampleHost groundedCamera first.1 first.2 = first
  /\ Store.chunks (@manageChunks sampleHost groundedCamera first.1 first.2).1
     = Store.chunks first.1.
Proof.
  apply (@manageChunks_idempotent sampleHost initialCamera groundedCamera
           initialStore 0%nat).
  reflexivity.
Defined.

Lemma chunk_store_sync_witness :
  let first := @manageChunks sampleHost (cameraAt 100 200) initialStore 0%nat in
  let st1 := first.1 in
  let st2 := (@manageChunks sampleHost (cameraAt 3100 200) st1 first.2).1 in
  dom (Store.chunks st1)
  = {[ "-1,-1"; "-1,0"; "-1,1"; "0,-1"; "0,0"; "0,1"; "1,-1"; "1,0"; "1,1" ]}
  /\ dom (Store.chunks st2) ∖ dom (Store.chunks st1) = {[ "2,-1"; "2,0"; "2,1" ]}.
Proof.
  destruct (@chunk_store_sync sampleHost (cameraAt 100 200) (cameraAt 3100 200) 0%nat)
    as (_ & Hd1 & _ & _ & Hd2 & _).
  - reflexivity.
  - reflexivity.
  - split; [exact Hd1 | exact Hd2].
Defined.

(** The same run, evaluated: twelve chunks after the second call, and the
    chunk of cell (2,0) holds what [generateChunk] made. *)
Example chunk_store_sync_run :
  let first := @manageChunks sampleHost (cameraAt 100 200) initialStore 0%nat in
  let st2 := (@manageChunks sampleHost (cameraAt 3100 200) first.1 first.2).1 in
  size (Store.chunks first.1) = 9%nat
  /\ size (Store.chunks st2) = 12%nat
  /\ (Chunk.xIndex <$> Store.chunks st2 !! "2,0") = Some 2%Z
  /\ (length ∘ Chunk.fishes <$> Store.chunks st2 !! "2,0") = Some FISH_PER_CHUNK.
Proof. vm_compute. repeat split. Qed.

(** * Further properties of the code *)

(** ** utils/math *)

Lemma Qmax_1_compat (a b : number) : a == b -> Qmax 1 a == Qmax 1 b.
Proof.
  intros E. destruct (Q.max_spec 1 a) as [[H ->]|[H ->]];
    destruct (Q.max_spec 1 b) as [[H' ->]|[H' ->]]; lra.
Qed.

(** The scale times the depth is the focal length. *)
Lemma scale_times_depth (z focalLength : number) :
  focalLength / Qmax 1 (z + focalLength) * Qmax 1 (z + focalLength) == focalLength.
Proof.
  field. pose proof (project3DTo2D_depth_ge_1 z focalLength). lra.
Qed.

(** X1: [project3DTo2D] depends on the point and the camera through their
    difference only: moving both by the same vector changes neither the
    screen point nor the scale. *)
Theorem project3DTo2D_translation_invariant
    (point : Point3D.t) (vx vy vz cameraX cameraY cameraZ centerX centerY focalLength : number) :
  let moved := Point3D.mk (Point3D.x point + vx) (Point3D.y point + vy)
                          (Point3D.z point + vz) in
  let p := project3DTo2D point cameraX cameraY cameraZ centerX centerY focalLength in
  let q := project3DTo2D moved (cameraX + vx) (cameraY + vy) (cameraZ + vz)
             centerX centerY focalLength in
  Point2D.x q == Point2D.x p /\ Point2D.y q == Point2D.y p
  /\ Point2D.scale q == Point2D.scale p.
Proof.
  cbv zeta. unfold project3DTo2D.
  cbn [Point2D.x Point2D.y Point2D.scale Point3D.x Point3D.y Point3D.z].
  assert (Hd : Qmax 1 (Point3D.z point + vz - (cameraZ + vz) + focalLength)
               == Qmax 1 (Point3D.z point - cameraZ + focalLength))
    by (apply Qmax_1_compat; ring).
  rewrite Hd.
  set (s := focalLength / Qmax 1 (Point3D.z point - cameraZ + focalLength)).
  repeat split; ring.
Qed.

(** X2: for a positive focal length the scale is positive and at most the
    focal length, a point at or behind the lens plane
    ([z + focalLength <= 1]) gets exactly the focal length (the depth is
    floored, the sign never flips), and of two points the farther one has
    the smaller or equal scale. *)
Theorem project3DTo2D_scale_bounds
    (point farther : Point3D.t) (cameraX cameraY cameraZ centerX centerY focalLength : number) :
  0 < focalLength ->
  Point3D.z point <= Point3D.z farther ->
  let p := project3DTo2D point cameraX cameraY cameraZ centerX centerY focalLength in
  let q := project3DTo2D farther cameraX cameraY cameraZ centerX centerY focalLength in
  0 < Point2D.scale p <= focalLength
  /\ (Point3D.z point - cameraZ + focalLength <= 1 -> Point2D.scale p == focalLength)
  /\ Point2D.scale q <= Point2D.scale p.
Proof.
  intros Hf Hz. cbv zeta. unfold project3DTo2D. cbn [Point2D.scale].
  set (z1 := Point3D.z point - cameraZ). set (z2 := Point3D.z farther - cameraZ).
  assert (Hz12 : z1 <= z2) by (unfold z1, z2; lra).
  pose proof (scale_times_depth z1 focalLength) as H1.
  pose proof (scale_times_depth z2 focalLength) as H2.
  pose proof (project3DTo2D_depth_ge_1 z1 focalLength) as D1.
  pose proof (project3DTo2D_depth_ge_1 z2 focalLength) as D2.
  assert (D12 : Qmax 1 (z1 + focalLength) <= Qmax 1 (z2 + focalLength)).
  { destruct (Q.max_spec 1 (z1 + focalLength)) as [[? ->]|[? ->]];
    destruct (Q.max_spec 1 (z2 + focalLength)) as [[? ->]|[? ->]]; lra. }
  set (s1 := focalLength / Qmax 1 (z1 + focalLength)) in *.
  set (s2 := focalLength / Qmax 1 (z2 + focalLength)) in *.
  set (d1 := Qmax 1 (z1 + focalLength)) in *.
  set (d2 := Qmax 1 (z2 + focalLength)) in *.
  assert (P1 : 0 < s1) by nra.
  assert (P2 : 0 < s2) by nra.
  repeat split.
  - exact P1.
  - nra.
  - intros Hb. assert (E : d1 == 1) by (unfold d1; apply Q.max_l; exact Hb). nra.
  - nra.
Qed.

Lemma project3DTo2D_scale_bounds_witness :
  let p := project3DTo2D (Point3D.mk 0 0 100) 0 0 0 640 360 800 in
  let q := project3DTo2D (Point3D.mk 0 0 900) 0 0 0 640 360 800 in
  Point2D.scale q <= Point2D.scale p.
Proof.
  apply (project3DTo2D_scale_bounds (Point3D.mk 0 0 100) (Point3D.mk 0 0 900)
           0 0 0 640 360 800).
  - reflexivity.
  - vm_compute; discriminate.
Defined.

(** X3: the scale vanishes with distance: for a positive focal length and
    any [eps > 0], every point at relative depth [focalLength / eps] or
    more has a scale of at most [eps]. *)
Theorem project3DTo2D_scale_vanishes
    (point : Point3D.t) (cameraX cameraY cameraZ centerX centerY focalLength eps : number) :
  0 < focalLength -> 0 < eps ->
  focalLength / eps <= Point3D.z point - cameraZ ->
  Point2D.scale
    (project3DTo2D point cameraX cameraY cameraZ centerX centerY focalLength) <= eps.
Proof.
  intros Hf He Hz. unfold project3DTo2D. cbn [Point2D.scale].
  set (z := Point3D.z point - cameraZ) in *.
  pose proof (scale_times_depth z focalLength) as Hs.
  assert (Ht : focalLength / eps * eps == focalLength) by (field; lra).
  assert (Hd : z + focalLength <= Qmax 1 (z + focalLength)) by apply Q.le_max_r.
  pose proof (project3DTo2D_depth_ge_1 z focalLength) as D1.
  set (s := focalLength / Qmax 1 (z + focalLength)) in *.
  set (d := Qmax 1 (z + focalLength)) in *.
  set (t := focalLength / eps) in *.
  assert (Hpos : 0 < t) by nra.
  assert (Hed : focalLength <= eps * d) by nra.
  nra.
Qed.

Lemma project3DTo2D_scale_vanishes_witness :
  Point2D.scale (project3DTo2D (Point3D.mk 0 0 80000) 0 0 0 640 360 800) <= 0.01.
Proof.
  apply (project3DTo2D_scale_vanishes (Point3D.mk 0 0 80000) 0 0 0 640 360 800 0.01).
  - reflexivity.
  - reflexivity.
  - vm_compute; discriminate.
Defined.

(** X4: [mapRange] over a non-empty input range sends [inMin] to [outMin]
    and [inMax] to [outMax], and mapping back over a non-empty output range
    returns the value; over an empty input range ([inMin = inMax]) it has
    no finite result. *)
Theorem mapRange_endpoints_and_inverse (value inMin inMax outMin outMax : number) :
  (inMin == inMax -> mapRange value inMin inMax outMin outMax = None)
  /\ (~ inMin == inMax ->
      exists lo hi mapped,
        mapRange inMin inMin inMax outMin outMax = Some lo /\ lo == outMin
        /\ mapRange inMax inMin inMax outMin outMax = Some hi /\ hi == outMax
        /\ mapRange value inMin inMax outMin outMax = Some mapped
        /\ (~ outMin == outMax ->
            exists back, mapRange mapped outMin outMax inMin inMax = Some back
                         /\ back == value)).
Proof.
  split.
  - intros E. unfold mapRange. rewrite jsdiv_zero; [reflexivity | lra].
  - intros Hin. unfold mapRange.
    rewrite !jsdiv_Some by lra.
    eexists. eexists. eexists.
    split; [reflexivity|]. split; [field; lra|].
    split; [reflexivity|]. split; [field; lra|].
    split; [reflexivity|].
    intros Hout. rewrite jsdiv_Some by lra.
    eexists. split; [reflexivity|]. field. split; lra.
Qed.

Lemma mapRange_endpoints_and_inverse_witness :
  exists mapped back,
    mapRange 5 0 10 100 200 = Some mapped
    /\ mapRange mapped 100 200 0 10 = Some back /\ back == 5.
Proof.
  destruct (proj2 (mapRange_endpoints_and_inverse 5 0 10 100 200))
    as (lo & hi & mapped & _ & _ & _ & _ & Hm & Hback).
  - vm_compute; discriminate.
  - destruct Hback as (back & Hb & Ev); [vm_compute; discriminate|].
    exists mapped, back. auto.
Defined.

(** ** Procedural generation: what a generated chunk holds *)

Lemma Qfloor_between (a b : Z) (v : number) :
  inject_Z a <= v < inject_Z b -> (a <= Qfloor v < b)%Z.
Proof.
  intros [Ha Hb]. split.
  - rewrite <- (Qfloor_Z a). now apply Qfloor_resp_le.
  - pose proof (Qfloor_le v) as Hf.
    assert (Hlt : inject_Z (Qfloor v) < inject_Z b) by lra.
    now rewrite <- Zlt_Qlt in Hlt.
Qed.

Section Population.
Context `{Host}.
Hypothesis random_unit : forall k, 0 <= random_tape k < 1.

(** Bounds on the value read at one place of the tape, and the constants
    unfolded, for [lra]. *)
Ltac tape_facts :=
  repeat match goal with
  | |- context [random_tape ?k] =>
      lazymatch goal with
      | _ : 0 <= random_tape k < 1 |- _ => fail
      | _ => pose proof (random_unit k)
      end
  end;
  unfold CHUNK_SIZE, FLOOR_LEVEL, SURFACE_LEVEL in *.

Lemma createPlant_shape (baseX baseZ : number) (n : nat) :
  let plant := (createPlant baseX baseZ n).1 in
  (baseX <= Plant.x plant < baseX + CHUNK_SIZE
   /\ baseZ <= Plant.z plant < baseZ + CHUNK_SIZE)
  /\ FLOOR_LEVEL <= Plant.yBase plant < FLOOR_LEVEL + 50
  /\ match Plant.type plant with
     | stalk => 1500 <= Plant.height plant < 2500
                /\ 15 <= Plant.width plant < 40
                /\ Plant.segments plant = 4%Z /\ Plant.stiffness plant = 0.2
     | _ => 600 <= Plant.height plant < 1600
            /\ 8 <= Plant.width plant < 25
            /\ (8 <= Plant.segments plant <= 15)%Z
            /\ 0.8 <= Plant.stiffness plant < 1.5
     end.
Proof.
  cbv zeta.
  unfold createPlant, randomRange, Math_random, mbind, Rand_bind, mret, Rand_ret.
  destruct (gtb (random_tape n) 0.7); [|destruct (gtb (random_tape n) 0.9)];
    cbn [fst isStalk Plant.x Plant.z Plant.yBase Plant.type Plant.height
         Plant.width Plant.segments Plant.stiffness];
    (split; [tape_facts; lra|]); (split; [tape_facts; lra|]).
  - repeat split; try reflexivity; tape_facts; lra.
  - split; [tape_facts; lra|]. split; [tape_facts; lra|].
    split; [|tape_facts; lra].
    match goal with |- (_ <= Qfloor ?v <= _)%Z =>
      assert (Hv : (8 <= Qfloor v < 16)%Z)
        by (apply Qfloor_between; unfold inject_Z; tape_facts; lra) end.
    lia.
  - split; [tape_facts; lra|]. split; [tape_facts; lra|].
    split; [|tape_facts; lra].
    match goal with |- (_ <= Qfloor ?v <= _)%Z =>
      assert (Hv : (8 <= Qfloor v < 16)%Z)
        by (apply Qfloor_between; unfold inject_Z; tape_facts; lra) end.
    lia.
Qed.

Lemma generateFish_shape (baseX baseZ : number) (n : nat) :
  let fish := (generateFish baseX baseZ n).1 in
  (baseX <= Fish.x fish < baseX + CHUNK_SIZE
   /\ baseZ <= Fish.z fish < baseZ + CHUNK_SIZE)
  /\ SURFACE_LEVEL + 200 <= Fish.y fish < FLOOR_LEVEL - 200
  /\ SURFACE_LEVEL + 200 <= Fish.targetY fish < FLOOR_LEVEL - 200
  /\ Fish.x fish - 500 <= Fish.targetX fish < Fish.x fish + 500
  /\ Fish.z fish - 500 <= Fish.targetZ fish < Fish.z fish + 500
  /\ 4 <= Fish.speed fish < 8.
Proof.
  cbv zeta.
  unfold generateFish, randomRange, Math_random, mbind, Rand_bind, mret, Rand_ret.
  cbn [fst Fish.x Fish.y Fish.z Fish.targetX Fish.targetY Fish.targetZ Fish.speed].
  repeat split; tape_facts; lra.
Qed.

Lemma generateCrab_shape (baseX baseZ : number) (n : nat) :
  let crab := (generateCrab baseX baseZ n).1 in
  (baseX <= Crab.x crab < baseX + CHUNK_SIZE
   /\ baseZ <= Crab.z crab < baseZ + CHUNK_SIZE)
  /\ (baseX <= Crab.targetX crab < baseX + CHUNK_SIZE
      /\ baseZ <= Crab.targetZ crab < baseZ + CHUNK_SIZE)
  /\ Crab.y crab = FLOOR_LEVEL
  /\ Crab.state crab = idle /\ Crab.idleTimer crab = 0
  /\ 1 <= Crab.speed crab < 3.
Proof.
  cbv zeta.
  unfold generateCrab, randomRange, Math_random, mbind, Rand_bind, mret, Rand_ret.
  cbn [fst Crab.x Crab.y Crab.z Crab.targetX Crab.targetZ Crab.state
       Crab.idleTimer Crab.speed].
  repeat split; try reflexivity; tape_facts; lra.
Qed.

End Population.

Section GeneratedChunk.
Context `{Host}.

Lemma generateChunk_parts (cx cz : Z) (n : nat) :
  let baseX := inject_Z cx * CHUNK_SIZE in
  let baseZ := inject_Z cz * CHUNK_SIZE in
  let chunk := (generateChunk cx cz n).1 in
  exists n1 n2,
    Chunk.plants chunk = (repeatM PLANTS_PER_CHUNK (createPlant baseX baseZ) n).1
    /\ Chunk.fishes chunk = (repeatM FISH_PER_CHUNK (generateFish baseX baseZ) n1).1
    /\ Chunk.crabs chunk = (repeatM CRABS_PER_CHUNK (generateCrab baseX baseZ) n2).1.
Proof.
  cbv zeta. unfold generateChunk, mbind, Rand_bind, mret, Rand_ret.
  destruct (repeatM PLANTS_PER_CHUNK _ n) as [ps n1].
  exists n1.
  destruct (repeatM FISH_PER_CHUNK _ n1) as [fs n2].
  exists n2.
  destruct (repeatM CRABS_PER_CHUNK _ n2) as [cs n3]. cbn. auto.
Qed.

(** X5: with [Math.random] in [[0, 1)], [generateChunk(cx, cz)] returns 15
    fish and 4 crabs, and every plant, fish and crab of it is rooted inside
    the chunk's square [[cx*S, cx*S + S) x [cz*S, cz*S + S)]; fish swim
    between 200 below the surface and 200 above the floor with a first
    target within 500 of them, and crabs sit on the floor with their first
    target inside the square. *)
Theorem generateChunk_entities_inside (cx cz : Z) (n : nat) :
  (forall k, 0 <= random_tape k < 1) ->
  let baseX := inject_Z cx * CHUNK_SIZE in
  let baseZ := inject_Z cz * CHUNK_SIZE in
  let chunk := (generateChunk cx cz n).1 in
  (length (Chunk.fishes chunk) = FISH_PER_CHUNK
   /\ length (Chunk.crabs chunk) = CRABS_PER_CHUNK)
  /\ Forall (fun plant =>
       baseX <= Plant.x plant < baseX + CHUNK_SIZE
       /\ baseZ <= Plant.z plant < baseZ + CHUNK_SIZE) (Chunk.plants chunk)
  /\ Forall (fun fish =>
       (baseX <= Fish.x fish < baseX + CHUNK_SIZE
        /\ baseZ <= Fish.z fish < baseZ + CHUNK_SIZE)
       /\ SURFACE_LEVEL + 200 <= Fish.y fish < FLOOR_LEVEL - 200
       /\ Fish.x fish - 500 <= Fish.targetX fish < Fish.x fish + 500
       /\ Fish.z fish - 500 <= Fish.targetZ fish < Fish.z fish + 500)
       (Chunk.fishes chunk)
  /\ Forall (fun crab =>
       (baseX <= Crab.x crab < baseX + CHUNK_SIZE
        /\ baseZ <= Crab.z crab < baseZ + CHUNK_SIZE)
       /\ (baseX <= Crab.targetX crab < baseX + CHUNK_SIZE
           /\ baseZ <= Crab.targetZ crab < baseZ + CHUNK_SIZE)
       /\ Crab.y crab = FLOOR_LEVEL) (Chunk.crabs chunk).
Proof.
  intros Hrand baseX baseZ chunk.
  destruct (generateChunk_parts cx cz n) as (n1 & n2 & Hp & Hf & Hc).
  fold baseX baseZ chunk in Hp, Hf, Hc. rewrite Hp, Hf, Hc.
  split; [split; apply repeatM_length|].
  split; [|split]; apply repeatM_Forall; intros m.
  - apply (createPlant_shape Hrand baseX baseZ m).
  - pose proof (generateFish_shape Hrand baseX baseZ m) as S. cbv zeta in S. tauto.
  - pose proof (generateCrab_shape Hrand baseX baseZ m) as S. cbv zeta in S. tauto.
Qed.

(** X6: the type of a generated plant fixes its build: a stalk is 1500 to
    2500 tall and 15 to 40 wide with 4 segments and stiffness 0.2, any
    other plant is 600 to 1600 tall and 8 to 25 wide with 8 to 15 segments
    and a stiffness between 0.8 and 1.5; every plant is rooted on the
    floor or up to 50 below it. *)
Theorem generateChunk_plant_build (cx cz : Z) (n : nat) :
  (forall k, 0 <= random_tape k < 1) ->
  Forall (fun plant =>
    FLOOR_LEVEL <= Plant.yBase plant < FLOOR_LEVEL + 50
    /\ match Plant.type plant with
       | stalk => 1500 <= Plant.height plant < 2500
                  /\ 15 <= Plant.width plant < 40
                  /\ Plant.segments plant = 4%Z /\ Plant.stiffness plant = 0.2
       | _ => 600 <= Plant.height plant < 1600
              /\ 8 <= Plant.width plant < 25
              /\ (8 <= Plant.segments plant <= 15)%Z
              /\ 0.8 <= Plant.stiffness plant < 1.5
       end) (Chunk.plants (generateChunk cx cz n).1).
Proof.
  intros Hrand. rewrite generateChunk_plants.
  apply repeatM_Forall. intros m.
  apply (createPlant_shape Hrand (inject_Z cx * CHUNK_SIZE) (inject_Z cz * CHUNK_SIZE) m).
Qed.

Lemma generateCrab_idle (baseX baseZ : number) (n : nat) :
  Crab.state (generateCrab baseX baseZ n).1 = idle
  /\ Crab.idleTimer (generateCrab baseX baseZ n).1 = 0.
Proof. split; reflexivity. Qed.

(** X7: every crab of a generated chunk is created idle with its timer at
    zero, so its first update, whenever it comes, puts it in the walking
    state where it stands and draws two numbers from [Math.random]. *)
Theorem generated_crabs_walk_on_first_update (cx cz : Z) (n m : nat) :
  Forall (fun crab =>
    Crab.state crab = idle
    /\ exists crab',
         updateCrab crab m = (Some crab', S (S m))
         /\ Crab.state crab' = walking
         /\ Crab.x crab' = Crab.x crab /\ Crab.z crab' = Crab.z crab)
    (Chunk.crabs (generateChunk cx cz n).1).
Proof.
  destruct (generateChunk_parts cx cz n) as (n1 & n2 & _ & _ & ->).
  apply repeatM_Forall. intros k.
  destruct (generateCrab_idle (inject_Z cx * CHUNK_SIZE) (inject_Z cz * CHUNK_SIZE) k)
    as [Hs Ht].
  split; [exact Hs|].
  destruct (updateCrab_idle _ m Hs) as (crab' & Hu & Hw & _ & _ & Hx & Hz).
  { rewrite Ht. lra. }
  exists crab'. split; [|auto].
  rewrite <- Hu. unfold updateCrab. rewrite Hs, Ht. reflexivity.
Qed.

End GeneratedChunk.

Lemma generateChunk_entities_inside_witness :
  let chunk := (@generateChunk sampleHost 2 (-1) 0%nat).1 in
  Forall (fun plant =>
    inject_Z 2 * CHUNK_SIZE <= Plant.x plant < inject_Z 2 * CHUNK_SIZE + CHUNK_SIZE
    /\ inject_Z (-1) * CHUNK_SIZE <= Plant.z plant
         < inject_Z (-1) * CHUNK_SIZE + CHUNK_SIZE) (Chunk.plants chunk).
Proof.
  apply (@generateChunk_entities_inside sampleHost 2 (-1) 0%nat).
  intros k. split; vm_compute; [discriminate | reflexivity].
Defined.

Lemma generateChunk_plant_build_witness :
  Forall (fun plant => FLOOR_LEVEL <= Plant.yBase plant < FLOOR_LEVEL + 50)
    (Chunk.plants (@generateChunk sampleHost 0 0 0%nat).1).
Proof.
  eapply Forall_impl;
    [apply (@generateChunk_plant_build sampleHost 0 0 0%nat)|].
  - intros k. split; vm_compute; [discriminate | reflexivity].
  - intros plant [Hy _]. exact Hy.
Defined.

(** ** Chunk store: what streaming keeps *)

Section Streaming.
Context `{Host}.

Lemma stored_index (m : gmap string Chunk.t) (x z : Z) (c : Chunk.t) :
  keyedByIndex m -> m !! chunkKey x z = Some c ->
  Chunk.xIndex c = x /\ Chunk.zIndex c = z.
Proof.
  intros Hm Hc. apply Hm in Hc. apply chunkKey_inj in Hc as [-> ->]. auto.
Qed.

(** After [manageChunks] from a new cell, or from a store that was
    complete around the last-checked cell, the store is complete around
    the camera cell. *)
Lemma manageChunks_covers (cam : Camera.t) (st : Store.t) (n : nat) :
  keyedByIndex (Store.chunks st) ->
  cameraCell cam <> (Store.lastChunkCheckX st, Store.lastChunkCheckZ st)
  \/ coversRenderDistance (Store.chunks st)
       (Store.lastChunkCheckX st) (Store.lastChunkCheckZ st) ->
  coversRenderDistance (Store.chunks (manageChunks cam st n).1)
    (cameraCell cam).1 (cameraCell cam).2.
Proof.
  intros Hk Hcase.
  destruct (decide (cameraCell cam
      = (Store.lastChunkCheckX st, Store.lastChunkCheckZ st))) as [E|E].
  - destruct Hcase as [Hne|Hc]; [contradiction|].
    rewrite manageChunks_same_cell by exact E. cbn [fst].
    rewrite E. exact Hc.
  - intros x z Hx Hz.
    apply (manageChunks_stored cam st n x z Hk E).
    unfold RENDER_DISTANCE_CHUNKS in *. split; [right|]; lia.
Qed.

(** X8: the invariant of the store.  If the camera has changed cell, or
    the store already held every cell within [RENDER_DISTANCE_CHUNKS] of
    the last-checked cell, then after [manageChunks] it holds every cell
    within [RENDER_DISTANCE_CHUNKS] of the camera cell (which is then the
    last-checked cell) and is still keyed by index; and when the camera
    has changed cell, no stored cell is farther than
    [RENDER_DISTANCE_CHUNKS + 1] from it. *)
Theorem manageChunks_covers_render_distance (cam : Camera.t) (st : Store.t) (n : nat) :
  keyedByIndex (Store.chunks st) ->
  cameraCell cam <> (Store.lastChunkCheckX st, Store.lastChunkCheckZ st)
  \/ coversRenderDistance (Store.chunks st)
       (Store.lastChunkCheckX st) (Store.lastChunkCheckZ st) ->
  let st' := (manageChunks cam st n).1 in
  let cx := (cameraCell cam).1 in
  let cz := (cameraCell cam).2 in
  coversRenderDistance (Store.chunks st') cx cz
  /\ coversRenderDistance (Store.chunks st')
       (Store.lastChunkCheckX st') (Store.lastChunkCheckZ st')
  /\ keyedByIndex (Store.chunks st')
  /\ (cameraCell cam <> (Store.lastChunkCheckX st, Store.lastChunkCheckZ st) ->
      forall x z, stored (Store.chunks st') x z ->
        (Z.max (Z.abs (x - cx)) (Z.abs (z - cz)) <= RENDER_DISTANCE_CHUNKS + 1)%Z).
Proof.
  intros Hk Hcase st' cx cz.
  pose proof (manageChunks_covers cam st n Hk Hcase) as Hcov.
  fold st' cx cz in Hcov.
  split; [exact Hcov|]. split.
  { pose proof (manageChunks_lastChunkCheck cam st n) as Hl. cbv zeta in Hl.
    fold st' in Hl. subst cx cz. destruct (cameraCell cam) as [a b].
    injection Hl as -> ->. exact Hcov. }
  split; [now apply manageChunks_keyedByIndex|].
  intros E x z Hs. subst st'.
  now apply (manageChunks_stored cam st n x z Hk E) in Hs.
Qed.

(** X9: no flicker at a cell border.  After [manageChunks] in a new cell
    A, a visit to a neighbouring cell B (one cell away at most, diagonals
    included) and the return to A: the return calls [Math.random] not once
    (it generates nothing), and every cell within
    [RENDER_DISTANCE_CHUNKS] of A holds the very chunk it held before the
    excursion. *)
Theorem manageChunks_no_flicker (camA camB : Camera.t) (st : Store.t) (n : nat) :
  keyedByIndex (Store.chunks st) ->
  cameraCell camA <> (Store.lastChunkCheckX st, Store.lastChunkCheckZ st) ->
  (Z.abs ((cameraCell camB).1 - (cameraCell camA).1) <= 1)%Z ->
  (Z.abs ((cameraCell camB).2 - (cameraCell camA).2) <= 1)%Z ->
  let first := manageChunks camA st n in
  let away := manageChunks camB first.1 first.2 in
  let back := manageChunks camA away.1 away.2 in
  back.2 = away.2
  /\ forall x z,
       (Z.abs (x - (cameraCell camA).1) <= RENDER_DISTANCE_CHUNKS)%Z ->
       (Z.abs (z - (cameraCell camA).2) <= RENDER_DISTANCE_CHUNKS)%Z ->
       is_Some (Store.chunks first.1 !! chunkKey x z)
       /\ Store.chunks back.1 !! chunkKey x z = Store.chunks first.1 !! chunkKey x z.
Proof.
  intros Hk HneA HbX HbZ first away back.
  pose proof (manageChunks_covers camA st n Hk (or_introl HneA)) as Hcov1.
  pose proof (manageChunks_keyedByIndex camA st n Hk) as Hk1.
  fold first in Hcov1, Hk1.
  assert (Hl1 : (Store.lastChunkCheckX first.1, Store.lastChunkCheckZ first.1)
                = cameraCell camA) by apply manageChunks_lastChunkCheck.
  assert (Hl2 : (Store.lastChunkCheckX away.1, Store.lastChunkCheckZ away.1)
                = cameraCell camB) by apply manageChunks_lastChunkCheck.
  assert (Hk2 : keyedByIndex (Store.chunks away.1))
    by (apply manageChunks_keyedByIndex; exact Hk1).
  (* the excursion keeps the chunks around A *)
  assert (Hkeep : forall x z c,
    (Z.abs (x - (cameraCell camA).1) <= RENDER_DISTANCE_CHUNKS)%Z ->
    (Z.abs (z - (cameraCell camA).2) <= RENDER_DISTANCE_CHUNKS)%Z ->
    Store.chunks first.1 !! chunkKey x z = Some c ->
    Store.chunks away.1 !! chunkKey x z = Some c).
  { intros x z c Hx Hz Hc. apply manageChunks_retains; [exact Hc|].
    destruct (stored_index _ x z c Hk1 Hc) as [Ex Ez].
    unfold chunkDist. rewrite Ex, Ez. unfold RENDER_DISTANCE_CHUNKS in *. lia. }
  destruct (decide (cameraCell camA = cameraCell camB)) as [Esame|Ediff].
  - (* B is A: both later calls return at once *)
    assert (E3 : back = away).
    { subst back. rewrite manageChunks_same_cell; [now destruct away|].
      now rewrite Hl2. }
    assert (E2 : away = first).
    { subst away. rewrite manageChunks_same_cell; [now destruct first|].
      now rewrite Hl1. }
    rewrite E3. split; [reflexivity|]. intros x z Hx Hz.
    split; [now apply Hcov1|]. now rewrite E2.
  - assert (Hne3 : cameraCell camA
                   <> (Store.lastChunkCheckX away.1, Store.lastChunkCheckZ away.1))
      by (rewrite Hl2; exact Ediff).
    assert (Hgen : foldM ensureChunk (Store.chunks away.1)
                     (neededCells (cameraCell camA).1 (cameraCell camA).2) away.2
                   = (Store.chunks away.1, away.2)).
    { apply generate_nothing. intros [x z] Hin.
      apply neededCells_spec in Hin. cbn [fst snd].
      assert (Hx : (Z.abs (x - (cameraCell camA).1) <= RENDER_DISTANCE_CHUNKS)%Z) by lia.
      assert (Hz : (Z.abs (z - (cameraCell camA).2) <= RENDER_DISTANCE_CHUNKS)%Z) by lia.
      destruct (Hcov1 x z Hx Hz) as [c Hc]. exists c. now apply Hkeep. }
    split.
    + subst back. rewrite manageChunks_new_cell_tape by exact Hne3. now rewrite Hgen.
    + intros x z Hx Hz. destruct (Hcov1 x z Hx Hz) as [c Hc].
      split; [eauto|]. rewrite Hc. subst back.
      apply manageChunks_retains; [now apply Hkeep|].
      destruct (stored_index _ x z c Hk1 Hc) as [Ex Ez].
      unfold chunkDist. rewrite Ex, Ez. unfold RENDER_DISTANCE_CHUNKS in *. lia.
Qed.

(** X11: [manageChunks] never replaces a chunk: under a key that is
    stored before and after the call, the chunk is the same one, with the
    entities it had. *)
Theorem manageChunks_never_regenerates (cam : Camera.t) (st : Store.t) (n : nat)
    (k : string) :
  is_Some (Store.chunks st !! k) ->
  is_Some (Store.chunks (manageChunks cam st n).1 !! k) ->
  Store.chunks (manageChunks cam st n).1 !! k = Store.chunks st !! k.
Proof.
  intros [c Hc] [c' Hc']. rewrite Hc, Hc'. f_equal.
  destruct (decide (cameraCell cam
      = (Store.lastChunkCheckX st, Store.lastChunkCheckZ st))) as [E|E].
  - rewrite manageChunks_same_cell in Hc' by exact E. cbn [fst] in Hc'. congruence.
  - rewrite manageChunks_new_cell in Hc' by exact E. cbn [Store.chunks] in Hc'.
    apply pruneChunks_lookup in Hc' as [Hc' _].
    pose proof (generate_old
      (neededCells (cameraCell cam).1 (cameraCell cam).2) _ n k c Hc) as Hold.
    congruence.
Qed.

End Streaming.

Lemma manageChunks_covers_render_distance_witness :
  coversRenderDistance
    (Store.chunks (@manageChunks sampleHost (cameraAt 100 200) initialStore 0%nat).1)
    0 0.
Proof.
  apply (@manageChunks_covers_render_distance sampleHost (cameraAt 100 200)
           initialStore 0%nat).
  - apply keyedByIndex_empty.
  - left. vm_compute. discriminate.
Defined.

Lemma manageChunks_no_flicker_witness :
  let first := @manageChunks sampleHost (cameraAt 2900 200) initialStore 0%nat in
  let away := @manageChunks sampleHost (cameraAt 3100 200) first.1 first.2 in
  let back := @manageChunks sampleHost (cameraAt 2900 200) away.1 away.2 in
  back.2 = away.2.
Proof.
  apply (@manageChunks_no_flicker sampleHost (cameraAt 2900 200) (cameraAt 3100 200)
           initialStore 0%nat).
  - apply keyedByIndex_empty.
  - vm_compute. discriminate.
  - vm_compute. discriminate.
  - vm_compute. discriminate.
Defined.

Lemma manageChunks_rerun_witness :
  let first := @manageChunks sampleHost (cameraAt 100 200) initialStore 0%nat in
  let forgotten :=
    {| Store.chunks := Store.chunks first.1;
       Store.lastChunkCheckX := -9999; Store.lastChunkCheckZ := -9999 |} in
  Store.chunks (@manageChunks sampleHost (cameraAt 150 2950) forgotten first.2).1
  = Store.chunks first.1.
Proof.
  apply (@manageChunks_rerun sampleHost (cameraAt 100 200) (cameraAt 150 2950)
           initialStore 0%nat (-9999) (-9999)).
  - apply keyedByIndex_empty.
  - vm_compute. discriminate.
  - reflexivity.
Defined.

Lemma manageChunks_never_regenerates_witness :
  let first := @manageChunks sampleHost (cameraAt 100 200) initialStore 0%nat in
  let st2 := (@manageChunks sampleHost (cameraAt 3100 200) first.1 first.2).1 in
  Store.chunks st2 !! "1,1" = Store.chunks first.1 !! "1,1".
Proof.
  apply (@manageChunks_never_regenerates sampleHost (cameraAt 3100 200)
           (@manageChunks sampleHost (cameraAt 100 200) initialStore 0%nat).1
           (@manageChunks sampleHost (cameraAt 100 200) initialStore 0%nat).2 "1,1").
  - vm_compute. eexists. reflexivity.
  - vm_compute. eexists. reflexivity.
Defined.

(** ** The spawnCreature tool *)

Lemma loopCount_nat (c : nat) : loopCount (inject_Z (Z.of_nat c)) = c.
Proof. unfold loopCount. rewrite Qceiling_Z. apply Nat2Z.id. Qed.

Lemma loopCount_nonpositive (count : number) : count <= 0 -> loopCount count = 0%nat.
Proof.
  intros Hc. unfold loopCount.
  assert (Hz : (Qceiling count <= 0)%Z).
  { rewrite <- (Qceiling_Z 0). now apply Qceiling_resp_le. }
  destruct (Qceiling count); try reflexivity. lia.
Qed.

Section Spawn.
Context `{Host}.
Implicit Types (m : gmap string Chunk.t) (cam : Camera.t).

(** The spawn loop for the type ['fish']: one new fish per iteration,
    pushed at the end. *)
Lemma spawnLoop_fish (P : Fish.t -> Prop) (type : string) cam (hue : option number) :
  String.eqb type "fish" = true ->
  (forall n, P (spawnFish cam hue n).1) ->
  forall (l : list nat) (fishes : list Fish.t) (n : nat),
  exists new,
    (foldM (fun fishes (_ : nat) =>
              if String.eqb type "fish"
              then f ← spawnFish cam hue; mret (fishes ++ [f])
              else mret fishes) fishes l n).1 = fishes ++ new
    /\ length new = length l /\ Forall P new.
Proof.
  intros Ht HP l. rewrite Ht. induction l as [|i l IH]; intros fishes n.
  - exists []. cbn. rewrite app_nil_r. auto.
  - cbn [foldM].
    unfold mbind at 1. unfold Rand_bind at 1.
    unfold mbind at 1. unfold Rand_bind at 1.
    specialize (HP n). destruct (spawnFish cam hue n) as [f n1]. cbn [fst] in HP.
    unfold mret at 1. unfold Rand_ret at 1.
    destruct (IH (fishes ++ [f]) n1) as (new & E & Hlen & Hall).
    exists (f :: new). rewrite E, <- app_assoc. cbn. auto.
Qed.

(** The spawn loop for any other type does nothing. *)
Lemma spawnLoop_other (type : string) cam (hue : option number) :
  String.eqb type "fish" = false ->
  forall (l : list nat) (fishes : list Fish.t) (n : nat),
    foldM (fun fishes (_ : nat) =>
             if String.eqb type "fish"
             then f ← spawnFish cam hue; mret (fishes ++ [f])
             else mret fishes) fishes l n = (fishes, n).
Proof.
  intros Ht l. rewrite Ht. induction l as [|i l IH]; intros fishes n; [reflexivity|].
  cbn [foldM]. unfold mbind at 1. unfold Rand_bind at 1.
  unfold mret at 1. unfold Rand_ret at 1. apply IH.
Qed.

End Spawn.

Section SpawnTool.
Context `{Host}.
Implicit Types (m : gmap string Chunk.t) (cam : Camera.t).

Lemma spawnCreature_missing (type : string) (count : number) (hue : option number)
    cam m (n : nat) :
  m !! chunkKey (cameraCell cam).1 (cameraCell cam).2 = None ->
  spawnCreature type count hue cam m n = ((m, NoActiveChunk), n).
Proof. intros E. unfold spawnCreature. now rewrite E. Qed.

Lemma spawnCreature_present_fish (P : Fish.t -> Prop) (type : string)
    (count : number) (hue : option number) cam m (n : nat) (chunk : Chunk.t) :
  String.eqb type "fish" = true ->
  (forall k, P (spawnFish cam hue k).1) ->
  m !! chunkKey (cameraCell cam).1 (cameraCell cam).2 = Some chunk ->
  exists new n',
    spawnCreature type count hue cam m n =
      ((<[chunkKey (cameraCell cam).1 (cameraCell cam).2 :=
            {| Chunk.id := Chunk.id chunk; Chunk.xIndex := Chunk.xIndex chunk;
               Chunk.zIndex := Chunk.zIndex chunk; Chunk.plants := Chunk.plants chunk;
               Chunk.fishes := Chunk.fishes chunk ++ new;
               Chunk.crabs := Chunk.crabs chunk |}]> m, Spawned), n')
    /\ length new = loopCount count /\ Forall P new.
Proof.
  intros Ht HP E. unfold spawnCreature. rewrite E.
  destruct (spawnLoop_fish P type cam hue Ht HP (seq 0 (loopCount count))
              (Chunk.fishes chunk) n) as (new & Hnew & Hlen & Hall).
  unfold mbind at 1. unfold Rand_bind at 1.
  destruct (foldM _ (Chunk.fishes chunk) (seq 0 (loopCount count)) n) as [fishes n'].
  cbn [fst] in Hnew. subst fishes.
  exists new, n'. split; [reflexivity|]. split; [|exact Hall].
  now rewrite Hlen, length_seq.
Qed.

(** X12: the [spawnCreature] call reports [Spawned] exactly when the cell
    of the camera has a chunk in the store; when it has none the call
    reports "no active chunk", leaves the store as it is and does not call
    [Math.random]. *)
Theorem spawnCreature_outcome (type : string) (count : number) (hue : option number)
    cam m (n : nat) :
  let result := spawnCreature type count hue cam m n in
  (result.1.2 = Spawned <-> stored m (cameraCell cam).1 (cameraCell cam).2)
  /\ (~ stored m (cameraCell cam).1 (cameraCell cam).2 ->
      result = ((m, NoActiveChunk), n)).
Proof.
  cbv zeta. unfold stored.
  destruct (m !! chunkKey (cameraCell cam).1 (cameraCell cam).2) as [chunk|] eqn:E.
  - split; [|intros Hn; exfalso; apply Hn; eauto].
    split; [eauto|]. intros _. unfold spawnCreature. rewrite E.
    unfold mbind at 1. unfold Rand_bind at 1.
    now destruct (foldM _ _ _ n).
  - rewrite spawnCreature_missing by exact E. cbn [fst snd].
    split; [|reflexivity]. split; [discriminate|]. intros [c Hc]. discriminate.
Qed.

(** X13: a [spawnCreature] call of type ['fish'] on a stored camera cell
    pushes [max(0, ceil(count))] fish onto that chunk's fish list, after
    the fish it had; the chunk's plants, crabs, id and indices and every
    other chunk are untouched, and the store stays keyed by index. *)
Theorem spawnCreature_adds_fish (count : number) (hue : option number)
    cam m (n : nat) (chunk : Chunk.t) :
  let key := chunkKey (cameraCell cam).1 (cameraCell cam).2 in
  m !! key = Some chunk ->
  let m' := (spawnCreature "fish" count hue cam m n).1.1 in
  exists chunk' new,
    m' !! key = Some chunk'
    /\ Chunk.fishes chunk' = Chunk.fishes chunk ++ new
    /\ length new = loopCount count
    /\ (Chunk.plants chunk' = Chunk.plants chunk
        /\ Chunk.crabs chunk' = Chunk.crabs chunk
        /\ Chunk.id chunk' = Chunk.id chunk
        /\ Chunk.xIndex chunk' = Chunk.xIndex chunk
        /\ Chunk.zIndex chunk' = Chunk.zIndex chunk)
    /\ (forall k, k <> key -> m' !! k = m !! k)
    /\ (keyedByIndex m -> keyedByIndex m').
Proof.
  intros key E m'.
  destruct (spawnCreature_present_fish (fun _ => True) "fish" count hue cam m n chunk)
    as (new & n' & Hs & Hlen & _); [reflexivity | auto | exact E |].
  subst m'. rewrite Hs. cbn [fst]. fold key.
  eexists. exists new. split; [apply lookup_insert_eq|].
  cbn [Chunk.fishes Chunk.plants Chunk.crabs Chunk.id Chunk.xIndex Chunk.zIndex].
  split; [reflexivity|]. split; [exact Hlen|]. split; [auto|]. split.
  - intros k Hk. now apply lookup_insert_ne.
  - intros Hm k c Hc. destruct (decide (key = k)) as [<-|Hne].
    + rewrite lookup_insert_eq in Hc. injection Hc as <-. cbn. now apply Hm.
    + rewrite lookup_insert_ne in Hc by exact Hne. now apply Hm.
Qed.

Lemma spawnFish_shape cam (hue : option number) (n : nat) :
  (forall k, 0 <= random_tape k < 1) ->
  let fish := (spawnFish cam hue n).1 in
  Camera.x cam - 500 <= Fish.x fish < Camera.x cam + 500
  /\ Camera.y cam - 500 < Fish.y fish <= Camera.y cam - 100
  /\ Camera.z cam + 200 <= Fish.z fish < Camera.z cam + 1000
  /\ Fish.targetX fish = Camera.x cam /\ Fish.targetZ fish = Camera.z cam + 1000.
Proof.
  intros Hrand. cbv zeta.
  unfold spawnFish, randomRange, Math_random, mbind, Rand_bind, mret, Rand_ret.
  pose proof (Hrand (S n)). pose proof (Hrand (S (S n))). pose proof (Hrand (S (S (S n)))).
  destruct hue as [h|]; [destruct (Qeq_bool h 0)|];
    cbn [fst Fish.x Fish.y Fish.z Fish.targetX Fish.targetZ];
    repeat split; lra.
Qed.

(** X14: with [Math.random] in [[0, 1)], every fish that a ['fish'] call
    adds is placed within 500 of the camera in x, between 100 and 500
    above it, and between 200 and 1000 ahead of it in z: submitted to the
    render queue of a frame with the camera where it was, it survives the
    cull. *)
Theorem spawnCreature_fish_in_view {D} (count : number) (hue : option number)
    cam m (n : nat) (chunk : Chunk.t) :
  (forall k, 0 <= random_tape k < 1) ->
  let key := chunkKey (cameraCell cam).1 (cameraCell cam).2 in
  m !! key = Some chunk ->
  let m' := (spawnCreature "fish" count hue cam m n).1.1 in
  exists chunk' new,
    m' !! key = Some chunk'
    /\ Chunk.fishes chunk' = Chunk.fishes chunk ++ new
    /\ Forall (fun fish =>
         Camera.x cam - 500 <= Fish.x fish < Camera.x cam + 500
         /\ Camera.y cam - 500 < Fish.y fish <= Camera.y cam - 100
         /\ forall (fogDensity centerX centerY : number)
                   (q : list (RenderItem.t D)) (drawFn : D),
              exists item,
                pushRenderItem cam fogDensity centerX centerY q
                  (Fish.x fish) (Fish.y fish) (Fish.z fish) drawFn = q ++ [item]
                /\ 200 <= RenderItem.z item < 1000) new.
Proof.
  intros Hrand key E m'.
  destruct (spawnCreature_present_fish
              (fun fish =>
                 Camera.x cam - 500 <= Fish.x fish < Camera.x cam + 500
                 /\ Camera.y cam - 500 < Fish.y fish <= Camera.y cam - 100
                 /\ Camera.z cam + 200 <= Fish.z fish < Camera.z cam + 1000)
              "fish" count hue cam m n chunk)
    as (new & n' & Hs & _ & Hall); [reflexivity | | exact E |].
  { intros k. pose proof (spawnFish_shape cam hue k Hrand) as S. cbv zeta in S. tauto. }
  subst m'. rewrite Hs. cbn [fst]. fold key.
  eexists. exists new. split; [apply lookup_insert_eq|].
  split; [reflexivity|].
  eapply Forall_impl; [exact Hall|]. intros fish (Hx & Hy & Hz).
  split; [exact Hx|]. split; [exact Hy|].
  intros fogDensity centerX centerY q drawFn.
  destruct (pushRenderItem_kept cam fogDensity centerX centerY q
              (Submission.mk (Fish.x fish) (Fish.y fish) (Fish.z fish) drawFn))
    as (item & Hp & Hzi & _).
  { unfold relativeZ, VISIBILITY_DEPTH. cbn [Submission.itemZ]. lra. }
  exists item. split; [exact Hp|]. rewrite Hzi. unfold relativeZ.
  cbn [Submission.itemZ]. lra.
Qed.

(** X15: a [spawnCreature] call of any type other than ['fish'] (the tool
    advertises crabs and particles too) on a stored camera cell reports
    [Spawned], yet changes nothing in the store and calls [Math.random]
    not once. *)
Theorem spawnCreature_other_type (type : string) (count : number)
    (hue : option number) cam m (n : nat) :
  String.eqb type "fish" = false ->
  stored m (cameraCell cam).1 (cameraCell cam).2 ->
  spawnCreature type count hue cam m n = ((m, Spawned), n).
Proof.
  intros Ht [chunk E]. unfold spawnCreature. rewrite E.
  unfold mbind at 1. unfold Rand_bind at 1.
  rewrite (spawnLoop_other type cam hue Ht). unfold mret, Rand_ret.
  destruct chunk. cbn. now rewrite insert_id.
Qed.

(** X16: a [spawnCreature] call that follows a [manageChunks] of the same
    camera, with the camera in a new cell or the store complete around the
    last-checked cell, always finds its chunk and reports [Spawned]. *)
Theorem spawnCreature_after_manageChunks (type : string) (count : number)
    (hue : option number) cam (st : Store.t) (n : nat) :
  keyedByIndex (Store.chunks st) ->
  cameraCell cam <> (Store.lastChunkCheckX st, Store.lastChunkCheckZ st)
  \/ coversRenderDistance (Store.chunks st)
       (Store.lastChunkCheckX st) (Store.lastChunkCheckZ st) ->
  let synced := manageChunks cam st n in
  (spawnCreature type count hue cam (Store.chunks synced.1) synced.2).1.2 = Spawned.
Proof.
  intros Hk Hcase synced.
  pose proof (manageChunks_covers cam st n Hk Hcase) as Hcov. fold synced in Hcov.
  assert (Hst : stored (Store.chunks synced.1) (cameraCell cam).1 (cameraCell cam).2).
  { apply Hcov; unfold RENDER_DISTANCE_CHUNKS; lia. }
  destruct Hst as [chunk E]. unfold spawnCreature. rewrite E.
  unfold mbind at 1. unfold Rand_bind at 1. now destruct (foldM _ _ _ _).
Qed.

End SpawnTool.

(** ** Render queue: what a frame draws *)

Section FrameQueue.
Context `{Host} {D : Type}.
Implicit Types (cam : Camera.t) (s : Submission.t D) (q : list (RenderItem.t D)).

(** What [pushRenderItem] does with one submission. *)
Lemma pushRenderItem_cases cam (fogDensity centerX centerY : number) q s :
  let pushed := pushRenderItem cam fogDensity centerX centerY q
                  (Submission.itemX s) (Submission.itemY s) (Submission.itemZ s)
                  (Submission.drawFn s) in
  (survivesCull cam s = false /\ pushed = q)
  \/ (survivesCull cam s = true /\ 1 <= relativeZ cam s <= VISIBILITY_DEPTH
      /\ exists item,
           pushed = q ++ [item]
           /\ RenderItem.z item = relativeZ cam s
           /\ DrawCall.drawFn (RenderItem.draw item tt) = Submission.drawFn s
           /\ DrawCall.distFactor (RenderItem.draw item tt)
              = Qmax 0 (1 - relativeZ cam s / (VISIBILITY_DEPTH / fogDensity))
           /\ Point2D.scale (DrawCall.p (RenderItem.draw item tt))
              = Camera.focalLength cam
                / Qmax 1 (relativeZ cam s + Camera.focalLength cam)).
Proof.
  cbv zeta. unfold survivesCull, pushRenderItem. fold (relativeZ cam s).
  destruct (ltb (relativeZ cam s) 1 || gtb (relativeZ cam s) VISIBILITY_DEPTH) eqn:E.
  - left. auto.
  - right. apply orb_false_iff in E as [E1 E2].
    apply ltb_ge in E1. apply gtb_le in E2.
    split; [reflexivity|]. split; [auto|].
    eexists. split; [reflexivity|]. cbn. repeat split.
Qed.

Lemma submitAll_snoc cam (fogDensity centerX centerY : number)
    (subs : list (Submission.t D)) s :
  submitAll cam fogDensity centerX centerY (subs ++ [s])
  = pushRenderItem cam fogDensity centerX centerY
      (submitAll cam fogDensity centerX centerY subs)
      (Submission.itemX s) (Submission.itemY s) (Submission.itemZ s)
      (Submission.drawFn s).
Proof. unfold submitAll. now rewrite fold_left_app. Qed.

(** A property that every kept item has holds of the whole queue. *)
Lemma submitAll_Forall (P : RenderItem.t D -> Prop) cam
    (fogDensity centerX centerY : number) (subs : list (Submission.t D)) :
  (forall q s item,
     pushRenderItem cam fogDensity centerX centerY q
       (Submission.itemX s) (Submission.itemY s) (Submission.itemZ s)
       (Submission.drawFn s) = q ++ [item] ->
     1 <= relativeZ cam s <= VISIBILITY_DEPTH -> P item) ->
  Forall P (submitAll cam fogDensity centerX centerY subs).
Proof.
  intros HP. induction subs as [|s subs IH] using rev_ind; [constructor|].
  rewrite submitAll_snoc.
  destruct (pushRenderItem_cases cam fogDensity centerX centerY
              (submitAll cam fogDensity centerX centerY subs) s)
    as [[_ ->]|(_ & Hz & item & Hp & _)]; [exact IH|].
  rewrite Hp. apply Forall_app. split; [exact IH|].
  constructor; [|constructor]. eapply HP; eauto.
Qed.

Lemma renderFrame_Forall (P : DrawCall.t D -> Prop) cam
    (fogDensity centerX centerY : number) (subs : list (Submission.t D)) :
  Forall (fun item => P (RenderItem.draw item tt))
    (submitAll cam fogDensity centerX centerY subs) ->
  Forall P (renderFrame cam fogDensity centerX centerY subs).
Proof.
  intros Hq. unfold renderFrame, executeQueue.
  apply Forall_map. now rewrite <- sortQueue_Permutation.
Qed.

(** For a positive fog density, every draw call of a frame gets a fog
    factor between 0 and 1. *)
Lemma fog_factor_in_unit_interval cam (fogDensity centerX centerY : number)
    (subs : list (Submission.t D)) :
  0 < fogDensity ->
  Forall (fun call => 0 <= DrawCall.distFactor call <= 1)
    (renderFrame cam fogDensity centerX centerY subs).
Proof.
  intros Hfog. apply renderFrame_Forall. apply submitAll_Forall.
  intros q s item Hp Hz.
  destruct (pushRenderItem_cases cam fogDensity centerX centerY q s)
    as [[_ E]|(_ & _ & item' & Hp' & _ & _ & Hd & _)].
  - cbv zeta in E. rewrite E in Hp.
    apply (f_equal (@length _)) in Hp. rewrite length_app in Hp. cbn in Hp. lia.
  - cbv zeta in Hp'. rewrite Hp' in Hp. apply app_inj_tail in Hp as [_ <-].
    rewrite Hd. split; [apply Q.le_max_l|].
    apply Q.max_lub; [lra|].
    assert (Hpos : 0 <= relativeZ cam s / (VISIBILITY_DEPTH / fogDensity)).
    { apply Qle_shift_div_l.
      - apply Qlt_shift_div_l; [exact Hfog | unfold VISIBILITY_DEPTH; lra].
      - lra. }
    lra.
Qed.

(** With a positive focal length, everything a frame draws is drawn at a
    scale strictly between 0 and 1: an item in the queue is at least one
    unit in front of the camera, so its depth exceeds the focal length. *)
Lemma drawn_scale_below_one cam (fogDensity centerX centerY : number)
    (subs : list (Submission.t D)) :
  0 < Camera.focalLength cam ->
  Forall (fun call => 0 < Point2D.scale (DrawCall.p call) < 1)
    (renderFrame cam fogDensity centerX centerY subs).
Proof.
  intros Hf. apply renderFrame_Forall. apply submitAll_Forall.
  intros q s item Hp Hz.
  destruct (pushRenderItem_cases cam fogDensity centerX centerY q s)
    as [[_ E]|(_ & _ & item' & Hp' & _ & _ & _ & Hs)].
  - cbv zeta in E. rewrite E in Hp.
    apply (f_equal (@length _)) in Hp. rewrite length_app in Hp. cbn in Hp. lia.
  - cbv zeta in Hp'. rewrite Hp' in Hp. apply app_inj_tail in Hp as [_ <-].
    rewrite Hs.
    pose proof (scale_times_depth (relativeZ cam s) (Camera.focalLength cam)) as Hsd.
    assert (Hd : Qmax 1 (relativeZ cam s + Camera.focalLength cam)
                 == relativeZ cam s + Camera.focalLength cam)
      by (apply Q.max_r; lra).
    set (sc := Camera.focalLength cam
               / Qmax 1 (relativeZ cam s + Camera.focalLength cam)) in *.
    rewrite Hd in Hsd. split; nra.
Qed.

(** X17: what the drawing code receives.  For a positive fog density
    every draw call of a frame gets a fog factor between 0 and 1, and for
    a positive focal length it gets a scale strictly between 0 and 1 (a
    queued item is at least one unit in front of the camera, so its depth
    exceeds the focal length). *)
Theorem draw_call_ranges cam (fogDensity centerX centerY : number)
    (subs : list (Submission.t D)) :
  (0 < fogDensity ->
   Forall (fun call => 0 <= DrawCall.distFactor call <= 1)
     (renderFrame cam fogDensity centerX centerY subs))
  /\ (0 < Camera.focalLength cam ->
      Forall (fun call => 0 < Point2D.scale (DrawCall.p call) < 1)
        (renderFrame cam fogDensity centerX centerY subs)).
Proof.
  split; [apply fog_factor_in_unit_interval | apply drawn_scale_below_one].
Qed.

End FrameQueue.

Section SortFacts.
Context {A : Type} (key : A -> number).

(** An item inserted into a list never passes an item of the same key. *)
Lemma insertSorted_filter_key (k : number) (a : A) (l : list A) :
  List.filter (fun x => Qeq_bool (key x) k) (insertSorted (fun a b => key b - key a) a l)
  = List.filter (fun x => Qeq_bool (key x) k) (a :: l).
Proof.
  induction l as [|b l IH]; [reflexivity|].
  cbn [insertSorted]. destruct (gtb (key b - key a) 0) eqn:E; [|reflexivity].
  apply gtb_gt in E. cbn [List.filter] in *. rewrite IH.
  destruct (Qeq_bool (key a) k) eqn:Ea; destruct (Qeq_bool (key b) k) eqn:Eb;
    try reflexivity.
  apply Qeq_bool_eq in Ea, Eb. lra.
Qed.

Lemma Array_sort_filter_key (k : number) (l : list A) :
  List.filter (fun x => Qeq_bool (key x) k) (Array_sort (fun a b => key b - key a) l)
  = List.filter (fun x => Qeq_bool (key x) k) l.
Proof.
  induction l as [|a l IH]; [reflexivity|].
  cbn [Array_sort foldr]. fold (Array_sort (fun a b => key b - key a) l).
  rewrite insertSorted_filter_key. cbn [List.filter]. now rewrite IH.
Qed.

(** Sorting two lists that agree on the keys, item by item, moves the
    items of both in the same way. *)
Lemma insertSorted_Forall2 {B} (keyB : B -> number) (R : A -> B -> Prop)
    (a : A) (b : B) (l : list A) (l' : list B) :
  (forall x y, R x y -> key x = keyB y) ->
  R a b -> Forall2 R l l' ->
  Forall2 R (insertSorted (fun a b => key b - key a) a l)
            (insertSorted (fun a b => keyB b - keyB a) b l').
Proof.
  intros HR Hab Hl. induction Hl as [|x y l l' Hxy Hl IH]; cbn [insertSorted].
  - repeat constructor. exact Hab.
  - rewrite (HR _ _ Hab), (HR _ _ Hxy).
    destruct (gtb (keyB y - keyB b) 0); repeat constructor; assumption.
Qed.

Lemma Array_sort_Forall2 {B} (keyB : B -> number) (R : A -> B -> Prop)
    (l : list A) (l' : list B) :
  (forall x y, R x y -> key x = keyB y) ->
  Forall2 R l l' ->
  Forall2 R (Array_sort (fun a b => key b - key a) l)
            (Array_sort (fun a b => keyB b - keyB a) l').
Proof.
  intros HR Hl. induction Hl as [|x y l l' Hxy Hl IH]; [constructor|].
  cbn [Array_sort foldr]. now apply insertSorted_Forall2.
Qed.

End SortFacts.

Section FrameOrder.
Context `{Host} {D : Type}.
Implicit Types (cam : Camera.t) (s : Submission.t D) (q : list (RenderItem.t D)).

(** X18: the sort of the queue is stable: the items at any one depth [k]
    are executed in the order in which they were submitted. *)
Theorem sortQueue_stable q (k : number) :
  List.filter (fun item => Qeq_bool (RenderItem.z item) k) (sortQueue q)
  = List.filter (fun item => Qeq_bool (RenderItem.z item) k) q.
Proof. apply (Array_sort_filter_key RenderItem.z). Qed.

Lemma submitAll_sameButFog cam (fog1 fog2 centerX centerY : number)
    (subs : list (Submission.t D)) :
  Forall2 sameButFog (submitAll cam fog1 centerX centerY subs)
                     (submitAll cam fog2 centerX centerY subs).
Proof.
  induction subs as [|s subs IH] using rev_ind; [constructor|].
  rewrite !submitAll_snoc. unfold pushRenderItem at 1 2.
  destruct (ltb _ 1 || gtb _ VISIBILITY_DEPTH); [exact IH|].
  apply Forall2_app; [exact IH|]. repeat constructor.
Qed.

(** X20: the fog density decides nothing but the fog factor: under two
    fog densities a frame makes the same draw calls, in the same order,
    at the same screen points and scales. *)
Theorem fog_changes_only_the_fog_factor cam (fog1 fog2 centerX centerY : number)
    (subs : list (Submission.t D)) :
  map DrawCall.drawFn (renderFrame cam fog1 centerX centerY subs)
  = map DrawCall.drawFn (renderFrame cam fog2 centerX centerY subs)
  /\ map DrawCall.p (renderFrame cam fog1 centerX centerY subs)
     = map DrawCall.p (renderFrame cam fog2 centerX centerY subs).
Proof.
  unfold renderFrame, executeQueue, sortQueue.
  pose proof (Array_sort_Forall2 RenderItem.z RenderItem.z sameButFog _ _
                (fun x y (R : sameButFog x y) => proj1 R)
                (submitAll_sameButFog cam fog1 fog2 centerX centerY subs)) as Hs.
  induction Hs as [|a b l l' (Hz & Hf & Hp) Hl IH]; [split; reflexivity|].
  cbn [map]. destruct IH as [IH1 IH2]. rewrite Hf, Hp, IH1, IH2. split; reflexivity.
Qed.

Lemma submitAll_drawFns cam (fogDensity centerX centerY : number)
    (subs : list (Submission.t D)) :
  map (fun item => DrawCall.drawFn (RenderItem.draw item tt))
    (submitAll cam fogDensity centerX centerY subs)
  = map Submission.drawFn (List.filter (survivesCull cam) subs).
Proof.
  induction subs as [|s subs IH] using rev_ind; [reflexivity|].
  rewrite submitAll_snoc, List.filter_app, map_app. cbn [List.filter].
  destruct (pushRenderItem_cases cam fogDensity centerX centerY
              (submitAll cam fogDensity centerX centerY subs) s)
    as [[Hc ->]|(Hc & _ & item & -> & _ & Hf & _)]; rewrite Hc.
  - cbn [map]. now rewrite app_nil_r.
  - rewrite map_app, IH. cbn [map]. now rewrite Hf.
Qed.

(** X19: a frame draws each surviving submission exactly once and nothing
    else: the draw functions it calls are, up to the order, those of the
    submissions that pass the test [1 <= relativeZ <= VISIBILITY_DEPTH]. *)
Theorem renderFrame_draws_the_survivors cam (fogDensity centerX centerY : number)
    (subs : list (Submission.t D)) :
  Permutation (map DrawCall.drawFn (renderFrame cam fogDensity centerX centerY subs))
              (map Submission.drawFn (List.filter (survivesCull cam) subs))
  /\ length (renderFrame cam fogDensity centerX centerY subs)
     = length (List.filter (survivesCull cam) subs)
  /\ forall s, survivesCull cam s = true <-> 1 <= relativeZ cam s <= VISIBILITY_DEPTH.
Proof.
  assert (HP : Permutation
    (map DrawCall.drawFn (renderFrame cam fogDensity centerX centerY subs))
    (map Submission.drawFn (List.filter (survivesCull cam) subs))).
  { rewrite <- submitAll_drawFns with (fogDensity := fogDensity)
      (centerX := centerX) (centerY := centerY).
    unfold renderFrame, executeQueue. rewrite map_map.
    apply Permutation_map. symmetry. apply sortQueue_Permutation. }
  split; [exact HP|]. split.
  - apply Permutation_length in HP. now rewrite !length_map in HP.
  - intros s. unfold survivesCull. rewrite negb_true_iff, orb_false_iff.
    rewrite ltb_ge, gtb_le. tauto.
Qed.

End FrameOrder.

(** ** Camera physics: limits and what input cannot do *)

Lemma clamp_bounds (lo hi v : number) : lo <= hi -> lo <= Qmax lo (Qmin hi v) <= hi.
Proof.
  intros Hlh. destruct (Q.max_spec lo (Qmin hi v)) as [[? ->]|[? ->]];
    destruct (Q.min_spec hi v) as [[? E]|[? E]]; rewrite ?E in *; lra.
Qed.

Lemma clamp_inside (lo hi v : number) : lo <= v <= hi -> Qmax lo (Qmin hi v) == v.
Proof.
  intros [Hl Hh]. destruct (Q.max_spec lo (Qmin hi v)) as [[? ->]|[? ->]];
    destruct (Q.min_spec hi v) as [[? E]|[? E]]; rewrite ?E in *; lra.
Qed.

Lemma has_handleKeyUp_ne (code c : string) (keys : gset string) :
  c <> code -> has (handleKeyUp code keys) c = has keys c.
Proof.
  intros Hne. unfold has, handleKeyUp. apply bool_decide_ext.
  rewrite elem_of_difference, elem_of_singleton. tauto.
Qed.

(** X21: while the chat is open a frame ignores the keys, the buttons and
    the pointer: any two inputs give the same camera, the look offset
    stays where it was and the zoom target is only clamped. *)
Theorem cameraPhysics_chat_open_ignores_input
    (inp inp' : Input.t) (env : Env.t) (cam : Camera.t) :
  Input.isChatOpen inp = true -> Input.isChatOpen inp' = true ->
  let cam' := cameraPhysics inp env cam in
  cam' = cameraPhysics inp' env cam
  /\ Camera.lookX cam' = Camera.lookX cam /\ Camera.lookY cam' = Camera.lookY cam
  /\ Camera.targetFocalLength cam' = Qmax 300 (Qmin 2000 (Camera.targetFocalLength cam))
  /\ Camera.velX cam'
     = Qmax (- MAX_SPEED) (Qmin MAX_SPEED (Camera.velX cam + 0)) * FRICTION.
Proof.
  intros Hc Hc'. cbv zeta. unfold cameraPhysics. rewrite Hc, Hc'.
  cbn [negb andb]. repeat split.
Qed.

Lemma cameraPhysics_chat_open_ignores_input_witness :
  cameraPhysics
    {| Input.keys := {[ "KeyW"; "Space" ]}; Input.ui := noUi;
       Input.mouseX := 1; Input.mouseY := -1; Input.isChatOpen := true |}
    initialEnv groundedCamera
  = cameraPhysics
      {| Input.keys := ∅; Input.ui := noUi;
         Input.mouseX := 0; Input.mouseY := 0; Input.isChatOpen := true |}
      initialEnv groundedCamera.
Proof.
  apply (cameraPhysics_chat_open_ignores_input
           {| Input.keys := {[ "KeyW"; "Space" ]}; Input.ui := noUi;
              Input.mouseX := 1; Input.mouseY := -1; Input.isChatOpen := true |}
           {| Input.keys := ∅; Input.ui := noUi;
              Input.mouseX := 0; Input.mouseY := 0; Input.isChatOpen := true |}
           initialEnv groundedCamera); reflexivity.
Defined.

(** X22: whatever the input and the state before, in one frame the camera
    moves by at most [MAX_SPEED] along x and along z, and it ends the
    frame with horizontal velocities of at most [MAX_SPEED * FRICTION]. *)
Theorem cameraPhysics_speed_limits (inp : Input.t) (env : Env.t) (cam : Camera.t) :
  let cam' := cameraPhysics inp env cam in
  (- MAX_SPEED <= Camera.x cam' - Camera.x cam <= MAX_SPEED
   /\ - MAX_SPEED <= Camera.z cam' - Camera.z cam <= MAX_SPEED)
  /\ (- (MAX_SPEED * FRICTION) <= Camera.velX cam' <= MAX_SPEED * FRICTION
      /\ - (MAX_SPEED * FRICTION) <= Camera.velZ cam' <= MAX_SPEED * FRICTION).
Proof.
  cbv zeta. unfold cameraPhysics.
  cbn [Camera.x Camera.z Camera.velX Camera.velZ].
  match goal with |- context [Qmax (- MAX_SPEED) (Qmin MAX_SPEED ?v) * FRICTION] =>
    pose proof (clamp_bounds (- MAX_SPEED) MAX_SPEED v) as Bx; set (vx := v) in * end.
  match goal with |- context [Camera.z cam + Qmax (- MAX_SPEED) (Qmin MAX_SPEED ?v)] =>
    pose proof (clamp_bounds (- MAX_SPEED) MAX_SPEED v) as Bz; set (vz := v) in * end.
  set (cx := Qmax (- MAX_SPEED) (Qmin MAX_SPEED vx)) in *.
  set (cz := Qmax (- MAX_SPEED) (Qmin MAX_SPEED vz)) in *.
  unfold MAX_SPEED, FRICTION in *.
  assert (Hx : -20 <= cx <= 20) by (apply Bx; lra).
  assert (Hz : -20 <= cz <= 20) by (apply Bz; lra).
  repeat split; lra.
Qed.

(** After every frame the zoom target lies in [[300, 2000]]; a focal
    length inside that range stays inside it, a positive one stays
    positive, and the focal length covers a tenth of its distance to the
    target. *)
Lemma cameraPhysics_zoom_range (inp : Input.t) (env : Env.t) (cam : Camera.t) :
  let cam' := cameraPhysics inp env cam in
  300 <= Camera.targetFocalLength cam' <= 2000
  /\ Camera.focalLength cam' - Camera.focalLength cam
     == (Camera.targetFocalLength cam' - Camera.focalLength cam) * 0.1
  /\ (300 <= Camera.focalLength cam <= 2000 ->
      300 <= Camera.focalLength cam' <= 2000)
  /\ (0 < Camera.focalLength cam -> 0 < Camera.focalLength cam').
Proof.
  cbv zeta. unfold cameraPhysics.
  cbn [Camera.targetFocalLength Camera.focalLength].
  match goal with |- context [Qmax 300 (Qmin 2000 ?v)] =>
    pose proof (clamp_bounds 300 2000 v) as B; set (t := Qmax 300 (Qmin 2000 v)) in * end.
  assert (Ht : 300 <= t <= 2000) by (apply B; lra).
  repeat split; try lra; intros; lra.
Qed.

(** X24: no jump in the air: when [isGrounded] is not set, a frame with
    the jump intent gives the same camera as the frame without it. *)
Theorem cameraPhysics_no_jump_in_the_air (inp : Input.t) (env : Env.t) (cam : Camera.t) :
  Camera.isGrounded cam = false ->
  cameraPhysics inp env cam = cameraPhysics (releaseJump inp) env cam.
Proof.
  intros Hg. unfold cameraPhysics, releaseJump. cbv zeta.
  cbn [Input.keys Input.ui Input.mouseX Input.mouseY Input.isChatOpen
       Ui.jump Ui.zoomIn Ui.zoomOut Ui.forward Ui.backward Ui.left Ui.right].
  rewrite Hg, !andb_false_r.
  repeat (rewrite (has_handleKeyUp_ne "Space") by discriminate). reflexivity.
Qed.

Lemma cameraPhysics_no_jump_in_the_air_witness :
  cameraPhysics jumpInput initialEnv initialCamera
  = cameraPhysics (releaseJump jumpInput) initialEnv initialCamera.
Proof.
  apply (cameraPhysics_no_jump_in_the_air jumpInput initialEnv initialCamera).
  reflexivity.
Defined.

(** X25: standing still: with no key and no button down, a camera at rest
    on the floor plane, under a positive gravity multiplier, ends the
    frame where it was, at rest, with [isGrounded] set. *)
Theorem cameraPhysics_standing_still (inp : Input.t) (env : Env.t) (cam : Camera.t) :
  Input.keys inp = ∅ -> Input.ui inp = noUi ->
  Camera.velX cam == 0 -> Camera.velY cam == 0 -> Camera.velZ cam == 0 ->
  Camera.y cam == FLOOR_LEVEL - PLAYER_HEIGHT ->
  0 < Env.gravityMult env ->
  let cam' := cameraPhysics inp env cam in
  (Camera.x cam' == Camera.x cam /\ Camera.y cam' == Camera.y cam
   /\ Camera.z cam' == Camera.z cam)
  /\ (Camera.velX cam' == 0 /\ Camera.velY cam' == 0 /\ Camera.velZ cam' == 0)
  /\ Camera.isGrounded cam' = true.
Proof.
  intros Hkeys Hui Hvx Hvy Hvz Hy Hg. cbv zeta.
  destruct (cameraPhysics_vertical inp env cam) as (Ey & Ev & Egr).
  cbv zeta in Ey, Ev, Egr. rewrite Ey, Ev, Egr.
  assert (Hnojump : has (Input.keys inp) "Space" || Ui.jump (Input.ui inp) = false)
    by (rewrite Hkeys, Hui; reflexivity).
  rewrite Hnojump, andb_false_r. cbn [andb].
  assert (Hland : gtb (Camera.y cam + (Camera.velY cam + GRAVITY * Env.gravityMult env))
                      (FLOOR_LEVEL - PLAYER_HEIGHT) = true)
    by (apply gtb_gt; unfold GRAVITY, FLOOR_LEVEL, PLAYER_HEIGHT in *; lra).
  rewrite Hland.
  unfold cameraPhysics. rewrite Hkeys, Hui.
  cbn [Camera.x Camera.z Camera.velX Camera.velZ has noUi Ui.forward Ui.backward
       Ui.left Ui.right orb andb].
  replace (has ∅ "KeyW") with false by reflexivity.
  replace (has ∅ "ArrowUp") with false by reflexivity.
  replace (has ∅ "KeyS") with false by reflexivity.
  replace (has ∅ "ArrowDown") with false by reflexivity.
  replace (has ∅ "KeyA") with false by reflexivity.
  replace (has ∅ "ArrowLeft") with false by reflexivity.
  replace (has ∅ "KeyD") with false by reflexivity.
  replace (has ∅ "ArrowRight") with false by reflexivity.
  cbn [orb andb]. rewrite !andb_false_r.
  assert (Cx : Qmax (- MAX_SPEED) (Qmin MAX_SPEED (Camera.velX cam + 0)) == Camera.velX cam + 0)
    by (apply clamp_inside; unfold MAX_SPEED; lra).
  assert (Cz : Qmax (- MAX_SPEED) (Qmin MAX_SPEED (Camera.velZ cam + 0)) == Camera.velZ cam + 0)
    by (apply clamp_inside; unfold MAX_SPEED; lra).
  rewrite Cx, Cz. unfold FRICTION.
  repeat split; try reflexivity; lra.
Qed.

Lemma cameraPhysics_standing_still_witness :
  let cam' := cameraPhysics idleInput initialEnv groundedCamera in
  Camera.isGrounded cam' = true.
Proof.
  apply (cameraPhysics_standing_still idleInput initialEnv groundedCamera);
    reflexivity.
Defined.

Lemma handleMouseMove_range (clientX clientY innerWidth innerHeight : number) :
  0 < innerWidth -> 0 < innerHeight ->
  0 <= clientX <= innerWidth -> 0 <= clientY <= innerHeight ->
  exists u v,
    handleMouseMove clientX clientY innerWidth innerHeight = Some (u, v)
    /\ -1 <= u <= 1 /\ -1 <= v <= 1.
Proof.
  intros Hw Hh Hx Hy. unfold handleMouseMove.
  rewrite !jsdiv_Some by lra.
  eexists. eexists. split; [reflexivity|].
  assert (Ex : clientX / innerWidth * innerWidth == clientX) by (field; lra).
  assert (Ey : clientY / innerHeight * innerHeight == clientY) by (field; lra).
  set (a := clientX / innerWidth) in *. set (b := clientY / innerHeight) in *.
  split; split; nra.
Qed.

(** X23: the eased quantities stay in range.  After every frame the zoom
    target lies in [[300, 2000]]; a focal length in that range stays in
    it and a positive one stays positive; and with the pointer in
    [[-1, 1]] a look offset within 600 (x) or 400 (y) stays within it, so
    that the guard [lookY > -500] of the water mesh holds after the
    frame. *)
Theorem cameraPhysics_eased_ranges (inp : Input.t) (env : Env.t) (cam : Camera.t) :
  let cam' := cameraPhysics inp env cam in
  300 <= Camera.targetFocalLength cam' <= 2000
  /\ (300 <= Camera.focalLength cam <= 2000 ->
      300 <= Camera.focalLength cam' <= 2000)
  /\ (0 < Camera.focalLength cam -> 0 < Camera.focalLength cam')
  /\ (-1 <= Input.mouseX inp <= 1 -> -600 <= Camera.lookX cam <= 600 ->
      -600 <= Camera.lookX cam' <= 600)
  /\ (-1 <= Input.mouseY inp <= 1 -> -400 <= Camera.lookY cam <= 400 ->
      -400 <= Camera.lookY cam' <= 400
      /\ gtb (Camera.lookY cam') (-500) = true).
Proof.
  cbv zeta.
  destruct (cameraPhysics_zoom_range inp env cam) as (Ht & _ & Hf & Hp).
  split; [exact Ht|]. split; [exact Hf|]. split; [exact Hp|].
  unfold cameraPhysics. cbn [Camera.lookX Camera.lookY].
  destruct (negb (Input.isChatOpen inp)); split; intros Hm Hl;
    try (split; [|apply gtb_gt]); lra.
Qed.

(** ** Surface water mesh *)

Lemma Qfloor_shift (q : number) (k : Z) : Qfloor (q + inject_Z k) = (Qfloor q + k)%Z.
Proof.
  pose proof (Qfloor_le q) as Hlo. pose proof (Qlt_floor q) as Hhi.
  assert (B : (Qfloor q + k <= Qfloor (q + inject_Z k) < Qfloor q + k + 1)%Z).
  { apply Qfloor_between. rewrite !inject_Z_plus in *. cbn in Hhi |- *. lra. }
  lia.
Qed.

Lemma stepRange_grid (a b : Z) :
  stepRange (inject_Z a * 500) (inject_Z b * 500) 500
  = (fun k => inject_Z a * 500 + inject_Z k * 500) <$> seqZ 0 (b - a + 1).
Proof.
  unfold stepRange.
  assert (E : (inject_Z b * 500 - inject_Z a * 500) / 500 == inject_Z (b - a)).
  { unfold Z.sub. rewrite inject_Z_plus, inject_Z_opp. field. }
  now rewrite (Qfloor_comp _ _ E), Qfloor_Z.
Qed.

Section WaterMesh.
Context `{Host}.

(** X29: when [lookY > -500] the water loop submits exactly 81 points, a
    9 by 9 block of the world grid of step 500 (their x and z are
    multiples of 500, whatever the camera position), reaching from less
    than 2500 behind the camera coordinate to at most 2000 beyond it; when
    [lookY <= -500] it submits none. *)
Theorem waterMesh_grid (cam : Camera.t) (time : number) :
  (Camera.lookY cam <= -500 -> waterMesh cam time = [])
  /\ (-500 < Camera.lookY cam ->
      length (waterMesh cam time) = 81%nat
      /\ Forall (fun tile =>
           (exists i : Z, tile.1.1 == inject_Z i * 500)
           /\ (exists j : Z, tile.2 == inject_Z j * 500)
           /\ Camera.x cam - 2500 < tile.1.1 <= Camera.x cam + 2000
           /\ Camera.z cam - 2500 < tile.2 <= Camera.z cam + 2000)
           (waterMesh cam time)).
Proof.
  split.
  - intros Hl. unfold waterMesh. apply gtb_le in Hl. now rewrite Hl.
  - intros Hl. unfold waterMesh. apply gtb_gt in Hl. rewrite Hl. cbv zeta.
    assert (Ex : Qfloor ((Camera.x cam + 2000) / 500)
                 = (Qfloor ((Camera.x cam - 2000) / 500) + 8)%Z).
    { rewrite <- Qfloor_shift. apply Qfloor_comp. field. }
    assert (Ez : Qfloor ((Camera.z cam + 2000) / 500)
                 = (Qfloor ((Camera.z cam - 2000) / 500) + 8)%Z).
    { rewrite <- Qfloor_shift. apply Qfloor_comp. field. }
    rewrite Ex, Ez, !stepRange_grid.
    pose proof (Qfloor_le ((Camera.x cam - 2000) / 500)) as Hx1.
    pose proof (Qlt_floor ((Camera.x cam - 2000) / 500)) as Hx2.
    pose proof (Qfloor_le ((Camera.z cam - 2000) / 500)) as Hz1.
    pose proof (Qlt_floor ((Camera.z cam - 2000) / 500)) as Hz2.
    set (a := Qfloor ((Camera.x cam - 2000) / 500)) in *.
    set (b := Qfloor ((Camera.z cam - 2000) / 500)) in *.
    replace (a + 8 - a + 1)%Z with 9%Z by lia.
    replace (b + 8 - b + 1)%Z with 9%Z by lia.
    split; [reflexivity|].
    assert (Dx : (Camera.x cam - 2000) / 500 * 500 == Camera.x cam - 2000) by field.
    assert (Dz : (Camera.z cam - 2000) / 500 * 500 == Camera.z cam - 2000) by field.
    rewrite inject_Z_plus in Hx2, Hz2.
    apply Forall_forall. intros [[x y] z] Hin.
    apply list_elem_of_bind in Hin as (z' & Hin & Hz').
    apply list_elem_of_bind in Hin as (x' & Hin & Hx').
    apply list_elem_of_singleton in Hin. injection Hin as -> -> ->.
    apply list_elem_of_fmap in Hx' as (i & -> & Hi).
    apply list_elem_of_fmap in Hz' as (j & -> & Hj).
    apply elem_of_seqZ in Hi, Hj. cbn [fst snd].
    assert (Bi : 0 <= inject_Z i <= 8)
      by (split; [change 0 with (inject_Z 0) | change 8 with (inject_Z 8)];
          rewrite <- Zle_Qle; lia).
    assert (Bj : 0 <= inject_Z j <= 8)
      by (split; [change 0 with (inject_Z 0) | change 8 with (inject_Z 8)];
          rewrite <- Zle_Qle; lia).
    change (inject_Z 1) with 1 in Hx2, Hz2.
    split; [exists (a + i)%Z; rewrite inject_Z_plus; ring|].
    split; [exists (b + j)%Z; rewrite inject_Z_plus; ring|].
    split; split; lra.
Qed.

End WaterMesh.

Lemma waterMesh_grid_witness :
  length (@waterMesh sampleHost initialCamera 0) = 81%nat.
Proof.
  apply (@waterMesh_grid sampleHost initialCamera 0). reflexivity.
Defined.

(** ** Agents, particles and holograms: one frame *)

Section FrameAgents.
Context `{Host}.

(** X26: one fish update that leaves a finite position.  The vertical
    target ends between 100 below the surface and 100 above the floor,
    and a fish inside that band stays inside it; a fish closer than 20 to
    its target (with [Math.random] in [[0, 1)]) gets a new target inside
    the square of the chunk that holds it, any other fish keeps its
    target. *)
Theorem updateFish_band_and_target (chunk : Chunk.t) (cam : Camera.t)
    (fish fish' : Fish.t) (n : nat) :
  (forall k, 0 <= random_tape k < 1) ->
  (updateFish chunk cam fish n).1 = Some fish' ->
  let baseX := inject_Z (Chunk.xIndex chunk) * CHUNK_SIZE in
  let baseZ := inject_Z (Chunk.zIndex chunk) * CHUNK_SIZE in
  SURFACE_LEVEL + 100 <= Fish.targetY fish' <= FLOOR_LEVEL - 100
  /\ (SURFACE_LEVEL + 100 <= Fish.y fish <= FLOOR_LEVEL - 100 ->
      SURFACE_LEVEL + 100 <= Fish.y fish' <= FLOOR_LEVEL - 100)
  /\ (fishDist fish < 20 ->
      baseX <= Fish.targetX fish' < baseX + CHUNK_SIZE
      /\ baseZ <= Fish.targetZ fish' < baseZ + CHUNK_SIZE)
  /\ (20 <= fishDist fish ->
      Fish.targetX fish' = Fish.targetX fish /\ Fish.targetZ fish' = Fish.targetZ fish).
Proof.
  intros Hrand Hu baseX baseZ. subst baseX baseZ.
  unfold updateFish, Math_random, randomRange in Hu.
  unfold mbind, Rand_bind, mret, Rand_ret in Hu. unfold fishDist.
  pose proof (clamp_bounds (SURFACE_LEVEL + 100) (FLOOR_LEVEL - 100)
                (Fish.targetY fish + (random_tape n - 0.5) * 20)) as Hband.
  set (ty := Qmax (SURFACE_LEVEL + 100)
               (Qmin (FLOOR_LEVEL - 100)
                  (Fish.targetY fish + (random_tape n - 0.5) * 20))) in *.
  assert (Hty : SURFACE_LEVEL + 100 <= ty <= FLOOR_LEVEL - 100)
    by (apply Hband; unfold SURFACE_LEVEL, FLOOR_LEVEL; lra).
  set (dx := Fish.targetX fish - Fish.x fish) in *.
  set (dz := Fish.targetZ fish - Fish.z fish) in *.
  set (dist := Math_sqrt (dx * dx + dz * dz)) in *.
  pose proof (Hrand (S n)) as R1. pose proof (Hrand (S (S n))) as R2.
  destruct (ltb dist 20) eqn:E; cbn [fst snd] in Hu;
    destruct (jsdiv dx dist) as [ux|]; try discriminate;
    destruct (jsdiv dz dist) as [uz|]; try discriminate;
    injection Hu as <-;
    cbn [Fish.targetY Fish.y Fish.targetX Fish.targetZ];
    (split; [exact Hty|]); (split; [intros Hy; lra|]).
  - apply ltb_lt in E. split; [|intros; lra].
    intros _. unfold CHUNK_SIZE. split; lra.
  - apply ltb_ge in E. split; [intros; lra|]. intros _. split; reflexivity.
Qed.

(** X30: a walking crab that has not arrived ([dist >= 10]) and whose
    speed does not exceed its distance goes straight for its target: the
    update calls [Math.random] not once, keeps the crab walking on the
    floor, and scales both offsets to the target by the same factor
    [1 - speed / dist], which lies between 0 and 1 (no overshoot). *)
Theorem updateCrab_walks_towards_target (crab : Crab.t) (n : nat) :
  Crab.state crab = walking ->
  10 <= crabDist crab ->
  0 <= Crab.speed crab <= crabDist crab ->
  let k := 1 - Crab.speed crab / crabDist crab in
  exists crab',
    updateCrab crab n = (Some crab', n)
    /\ Crab.state crab' = walking /\ Crab.y crab' = Crab.y crab
    /\ (Crab.targetX crab' = Crab.targetX crab /\ Crab.targetZ crab' = Crab.targetZ crab)
    /\ 0 <= k <= 1
    /\ Crab.targetX crab' - Crab.x crab' == k * (Crab.targetX crab - Crab.x crab)
    /\ Crab.targetZ crab' - Crab.z crab' == k * (Crab.targetZ crab - Crab.z crab).
Proof.
  intros Hst Hd Hsp k. subst k. unfold updateCrab. rewrite Hst.
  unfold crabDist in *.
  set (dx := Crab.targetX crab - Crab.x crab) in *.
  set (dz := Crab.targetZ crab - Crab.z crab) in *.
  set (dist := Math_sqrt (dx * dx + dz * dz)) in *.
  assert (E : ltb dist 10 = false) by (apply ltb_ge; exact Hd).
  rewrite E. rewrite !jsdiv_Some by lra.
  eexists. split; [reflexivity|].
  cbn [Crab.state Crab.y Crab.x Crab.z Crab.targetX Crab.targetZ].
  split; [reflexivity|]. split; [reflexivity|]. split; [auto|].
  assert (Hq : Crab.speed crab / dist * dist == Crab.speed crab) by (field; lra).
  set (q := Crab.speed crab / dist) in *.
  split; [split; nra|].
  clearbody dist. subst q. unfold dx, dz. split; field; lra.
Qed.

(** One particle update.  The particle ends at or below the surface line
    ([y >= SURFACE_LEVEL]): one that rose above it restarts on the floor,
    at an x offset in [[-2000, 2000)] when [Math.random] is in [[0, 1)].
    Under a non-negative gravity multiplier a particle at or above the
    floor stays there.  Its depth offset never changes, and the submission
    it makes is culled or kept by that offset alone, wherever the camera
    is. *)
Lemma updateParticle_stays_in_water {D} (time : number) (env : Env.t)
    (p : Particle.t) (n : nat) (cam : Camera.t) (drawFn : D) :
  let p' := (updateParticle time env p n).1 in
  SURFACE_LEVEL <= Particle.y p'
  /\ (Particle.y p - Qabs (Particle.speedY p) * 2 * Env.gravityMult env < SURFACE_LEVEL ->
      Particle.y p' = FLOOR_LEVEL
      /\ (0 <= random_tape n < 1 -> -2000 <= Particle.x p' < 2000))
  /\ (0 <= Env.gravityMult env -> Particle.y p <= FLOOR_LEVEL ->
      Particle.y p' <= FLOOR_LEVEL)
  /\ Particle.z p' = Particle.z p
  /\ (survivesCull cam (particleSubmission cam p' drawFn) = true
      <-> 1 <= Particle.z p <= VISIBILITY_DEPTH).
Proof.
  cbv zeta. unfold updateParticle, randomRange, Math_random.
  unfold mbind, Rand_bind, mret, Rand_ret.
  pose proof (Qabs_nonneg (Particle.speedY p)) as Habs.
  set (y := Particle.y p - Qabs (Particle.speedY p) * 2 * Env.gravityMult env) in *.
  assert (Hcull : forall q : Particle.t, Particle.z q = Particle.z p ->
    (survivesCull cam (particleSubmission cam q drawFn) = true
     <-> 1 <= Particle.z p <= VISIBILITY_DEPTH)).
  { intros q Hq. unfold survivesCull, relativeZ, particleSubmission.
    cbn [Submission.itemZ]. rewrite Hq.
    rewrite negb_true_iff, orb_false_iff, ltb_ge, gtb_le. split; intros; lra. }
  destruct (ltb y SURFACE_LEVEL) eqn:E;
    cbn [fst Particle.x Particle.y Particle.z].
  - apply ltb_lt in E. unfold SURFACE_LEVEL, FLOOR_LEVEL in *.
    split; [lra|]. split; [intros _; split; [reflexivity | intros; lra]|].
    split; [intros; lra|]. split; [reflexivity|]. now apply Hcull.
  - apply ltb_ge in E. unfold SURFACE_LEVEL, FLOOR_LEVEL in *.
    split; [exact E|]. split; [intros; lra|].
    split; [intros Hg Hy; unfold y; nra|]. split; [reflexivity|]. now apply Hcull.
Qed.

Lemma createParticle_shape (n : nat) :
  (forall k, 0 <= random_tape k < 1) ->
  let p := (createParticle n).1 in
  -2000 <= Particle.x p < 2000
  /\ SURFACE_LEVEL <= Particle.y p < FLOOR_LEVEL
  /\ 0 <= Particle.z p < VISIBILITY_DEPTH
  /\ -0.5 <= Particle.speedY p < -0.1.
Proof.
  intros Hrand. cbv zeta.
  unfold createParticle, randomRange, Math_random, mbind, Rand_bind, mret, Rand_ret.
  cbn [fst Particle.x Particle.y Particle.z Particle.speedY].
  pose proof (Hrand n). pose proof (Hrand (S n)). pose proof (Hrand (S (S n))).
  pose proof (Hrand (S (S (S (S (S n)))))).
  unfold SURFACE_LEVEL, FLOOR_LEVEL, VISIBILITY_DEPTH. repeat split; lra.
Qed.

(** X27: particles live in the water column.  With [Math.random] in
    [[0, 1)], [initParticles] creates [PARTICLE_COUNT] particles between
    the surface and the floor, at depth offsets in
    [[0, VISIBILITY_DEPTH)].  One update leaves a particle at or below the
    surface line: one that rose above it restarts on the floor, at an x
    offset in [[-2000, 2000)]; under a non-negative gravity multiplier a
    particle at or above the floor stays there.  The depth offset never
    changes, and the submission of a particle is culled or kept by that
    offset alone, wherever the camera is. *)
Theorem particles_stay_in_water {D} (time : number) (env : Env.t)
    (p : Particle.t) (n : nat) (cam : Camera.t) (drawFn : D) :
  ((forall k, 0 <= random_tape k < 1) ->
   length (initParticles n).1 = PARTICLE_COUNT
   /\ Forall (fun q => SURFACE_LEVEL <= Particle.y q < FLOOR_LEVEL
                       /\ 0 <= Particle.z q < VISIBILITY_DEPTH) (initParticles n).1)
  /\ let p' := (updateParticle time env p n).1 in
     SURFACE_LEVEL <= Particle.y p'
     /\ (Particle.y p - Qabs (Particle.speedY p) * 2 * Env.gravityMult env
           < SURFACE_LEVEL ->
         Particle.y p' = FLOOR_LEVEL
         /\ (0 <= random_tape n < 1 -> -2000 <= Particle.x p' < 2000))
     /\ (0 <= Env.gravityMult env -> Particle.y p <= FLOOR_LEVEL ->
         Particle.y p' <= FLOOR_LEVEL)
     /\ Particle.z p' = Particle.z p
     /\ (survivesCull cam (particleSubmission cam p' drawFn) = true
         <-> 1 <= Particle.z p <= VISIBILITY_DEPTH).
Proof.
  split.
  - intros Hrand. unfold initParticles. split; [apply repeatM_length|].
    apply repeatM_Forall. intros k.
    pose proof (createParticle_shape k Hrand) as S. cbv zeta in S. tauto.
  - apply updateParticle_stays_in_water.
Qed.

(** X28: a hologram added by the assistant goes last in the list with
    opacity 0, 800 in front of the camera, where the cull keeps it; the
    holograms already there are untouched.  Each frame raises its opacity
    by 0.01 up to the cap 1: after [k] frames it is [min(1, k * 0.01)],
    which is 1 from frame 100 on, and the opacity never decreases. *)
Theorem hologram_fades_in {I D} (cam : Camera.t) (img : I)
    (holograms : list (Hologram.t I)) (n : nat) :
  exists h,
    (addHologram cam img holograms n).1 = holograms ++ [h]
    /\ Hologram.opacity h = 0
    /\ (forall drawFn : D, survivesCull cam (hologramSubmission h drawFn) = true)
    /\ (forall k : nat,
          Hologram.opacity (fadeFrames k h) == Qmin 1 (inject_Z (Z.of_nat k) * 0.01)
          /\ Hologram.opacity (fadeFrames k h)
             <= Hologram.opacity (fadeFrames (S k) h)
          /\ ((100 <= k)%nat -> Hologram.opacity (fadeFrames k h) == 1)).
Proof.
  assert (Hfade : forall (k : nat) (g : Hologram.t I),
    Hologram.opacity (fadeFrames k g)
    == Qmin 1 (Hologram.opacity g + inject_Z (Z.of_nat k) * 0.01)
       \/ (1 < Hologram.opacity g /\ k = 0%nat)).
  { induction k as [|k IH]; intros g.
    - cbn [fadeFrames]. destruct (Qlt_le_dec 1 (Hologram.opacity g)); [right; auto|].
      left. change (inject_Z (Z.of_nat 0)) with 0.
      destruct (Q.min_spec 1 (Hologram.opacity g + 0 * 0.01)) as [[? ->]|[? ->]]; lra.
    - left. cbn [fadeFrames]. destruct (IH (fadeHologram g)) as [E|[Hgt _]].
      + rewrite E. cbn [fadeHologram Hologram.opacity].
        rewrite Nat2Z.inj_succ. unfold Z.succ. rewrite inject_Z_plus.
        assert (Hk : 0 <= inject_Z (Z.of_nat k))
          by (change 0 with (inject_Z 0); rewrite <- Zle_Qle; lia).
        change (inject_Z 1) with 1.
        destruct (Q.min_spec 1 (Hologram.opacity g + 0.01)) as [[? ->]|[? ->]];
          destruct (Q.min_spec 1 (1 + inject_Z (Z.of_nat k) * 0.01)) as [[? E1]|[? E1]];
          destruct (Q.min_spec 1 (Hologram.opacity g + 0.01 + inject_Z (Z.of_nat k) * 0.01))
            as [[? E2]|[? E2]];
          destruct (Q.min_spec 1 (Hologram.opacity g + (inject_Z (Z.of_nat k) + 1) * 0.01))
            as [[? E3]|[? E3]];
          rewrite ?E1, ?E2, ?E3; lra.
      + exfalso. cbn [fadeHologram Hologram.opacity] in Hgt.
        pose proof (Q.le_min_l 1 (Hologram.opacity g + 0.01)). lra. }
  unfold addHologram, Math_random, mbind, Rand_bind, mret, Rand_ret. cbn [fst].
  eexists. split; [reflexivity|]. cbn [Hologram.opacity].
  split; [reflexivity|]. split.
  { intros drawFn. unfold survivesCull, relativeZ, hologramSubmission.
    cbn [Submission.itemZ Hologram.z].
    rewrite negb_true_iff, orb_false_iff, ltb_ge, gtb_le.
    unfold VISIBILITY_DEPTH. split; lra. }
  intros k.
  match goal with |- context [fadeFrames k ?h0] => set (h := h0) end.
  assert (Hk : Hologram.opacity (fadeFrames k h)
               == Qmin 1 (inject_Z (Z.of_nat k) * 0.01)).
  { destruct (Hfade k h) as [E|[Hgt _]]; [|cbn in Hgt; lra].
    rewrite E. cbn [Hologram.opacity h]. now rewrite Qplus_0_l. }
  assert (HSk : Hologram.opacity (fadeFrames (S k) h)
                == Qmin 1 (inject_Z (Z.of_nat (S k)) * 0.01)).
  { destruct (Hfade (S k) h) as [E|[_ Habs]]; [|discriminate].
    rewrite E. cbn [Hologram.opacity h]. now rewrite Qplus_0_l. }
  split; [exact Hk|]. split.
  - rewrite Hk, HSk. rewrite Nat2Z.inj_succ. unfold Z.succ. rewrite inject_Z_plus.
    change (inject_Z 1) with 1.
    destruct (Q.min_spec 1 (inject_Z (Z.of_nat k) * 0.01)) as [[? ->]|[? ->]];
      destruct (Q.min_spec 1 ((inject_Z (Z.of_nat k) + 1) * 0.01)) as [[? ->]|[? ->]];
      lra.
  - intros Hge. rewrite Hk. apply Q.min_l.
    assert (H100 : 100 <= inject_Z (Z.of_nat k))
      by (change 100 with (inject_Z 100); rewrite <- Zle_Qle; lia).
    lra.
Qed.

End FrameAgents.

(** ** Runs of the properties above on sample values *)

Lemma sampleHost_random_unit : forall k, 0 <= @random_tape sampleHost k < 1.
Proof. intros k. split; vm_compute; [discriminate | reflexivity]. Qed.

Lemma spawnCreature_outcome_witness :
  @spawnCreature sampleHost "fish" 3 None (cameraAt 100 200) ∅ 0%nat
  = ((∅, NoActiveChunk), 0%nat).
Proof.
  apply (proj2 (@spawnCreature_outcome sampleHost "fish" 3 None
                  (cameraAt 100 200) ∅ 0%nat)).
  intros [c Hc]. vm_compute in Hc. discriminate.
Defined.

Lemma spawnCreature_adds_fish_witness :
  exists chunk' new,
    (@spawnCreature sampleHost "fish" 2.5 None (cameraAt 100 200)
       sampleChunks 0%nat).1.1 !! "0,0" = Some chunk'
    /\ Chunk.fishes chunk' = new /\ length new = 3%nat.
Proof.
  destruct (@spawnCreature_adds_fish sampleHost 2.5 None (cameraAt 100 200)
              sampleChunks 0%nat sampleChunk)
    as (chunk' & new & Hl & Hf & Hn & _).
  - reflexivity.
  - exists chunk', new. split; [exact Hl|]. split; [exact Hf | exact Hn].
Defined.

Lemma spawnCreature_fish_in_view_witness :
  exists chunk' new,
    (@spawnCreature sampleHost "fish" 2 (Some 120) (cameraAt 100 200)
       sampleChunks 0%nat).1.1 !! "0,0" = Some chunk'
    /\ Chunk.fishes chunk' = new
    /\ Forall (fun fish => 100 - 500 <= Fish.x fish < 100 + 500) new.
Proof.
  destruct (@spawnCreature_fish_in_view sampleHost unit 2 (Some 120)
              (cameraAt 100 200) sampleChunks 0%nat sampleChunk)
    as (chunk' & new & Hl & Hf & Hall).
  - apply sampleHost_random_unit.
  - reflexivity.
  - exists chunk', new. split; [exact Hl|]. split; [exact Hf|].
    eapply Forall_impl; [exact Hall|]. intros fish (Hx & _). exact Hx.
Defined.

Lemma spawnCreature_other_type_witness :
  @spawnCreature sampleHost "crab" 5 None (cameraAt 100 200) sampleChunks 0%nat
  = ((sampleChunks, Spawned), 0%nat).
Proof.
  apply (@spawnCreature_other_type sampleHost "crab" 5 None (cameraAt 100 200)
           sampleChunks 0%nat).
  - reflexivity.
  - exists sampleChunk. reflexivity.
Defined.

Lemma spawnCreature_after_manageChunks_witness :
  let synced := @manageChunks sampleHost (cameraAt 100 200) initialStore 0%nat in
  (@spawnCreature sampleHost "fish" 1 None (cameraAt 100 200)
     (Store.chunks synced.1) synced.2).1.2 = Spawned.
Proof.
  apply (@spawnCreature_after_manageChunks sampleHost "fish" 1 None
           (cameraAt 100 200) initialStore 0%nat).
  - apply keyedByIndex_empty.
  - left. vm_compute. discriminate.
Defined.

Lemma draw_call_ranges_witness :
  Forall (fun call => 0 <= DrawCall.distFactor call <= 1)
    (@renderFrame sampleHost string initialCamera 1 640 360
       [sampleSubmission 0 "a"; sampleSubmission 100 "b"]).
Proof.
  apply (proj1 (@draw_call_ranges sampleHost string initialCamera 1 640 360
                  [sampleSubmission 0 "a"; sampleSubmission 100 "b"])).
  reflexivity.
Defined.

Lemma cameraPhysics_eased_ranges_witness :
  gtb (Camera.lookY (cameraPhysics idleInput initialEnv initialCamera)) (-500) = true.
Proof.
  destruct (cameraPhysics_eased_ranges idleInput initialEnv initialCamera)
    as (_ & _ & _ & _ & HY).
  apply HY; vm_compute; split; discriminate.
Defined.

Lemma updateFish_band_and_target_witness :
  exists fish',
    (@updateFish sampleHost sampleChunk initialCamera sampleFish 0%nat).1 = Some fish'
    /\ SURFACE_LEVEL + 100 <= Fish.targetY fish' <= FLOOR_LEVEL - 100.
Proof.
  eexists. split; [vm_compute; reflexivity|].
  eapply (@updateFish_band_and_target sampleHost sampleChunk initialCamera
            sampleFish _ 0%nat).
  - apply sampleHost_random_unit.
  - vm_compute. reflexivity.
Defined.

Lemma updateCrab_walks_towards_target_witness :
  exists crab',
    @updateCrab sampleHost sampleCrab 0%nat = (Some crab', 0%nat)
    /\ Crab.state crab' = walking.
Proof.
  destruct (@updateCrab_walks_towards_target sampleHost sampleCrab 0%nat)
    as (crab' & Hu & Hs & _).
  - reflexivity.
  - vm_compute. discriminate.
  - vm_compute. split; discriminate.
  - exists crab'. split; [exact Hu | exact Hs].
Defined.

Lemma particles_stay_in_water_witness :
  Particle.y (@updateParticle sampleHost 0 initialEnv sampleParticle 0%nat).1
  = FLOOR_LEVEL.
Proof.
  destruct (@particles_stay_in_water sampleHost unit 0 initialEnv
              sampleParticle 0%nat initialCamera tt) as (_ & _ & Hr & _).
  apply Hr. vm_compute. reflexivity.
Defined.

Lemma hologram_fades_in_witness :
  exists h,
    (@addHologram sampleHost string initialCamera "image" [] 0%nat).1 = [h]
    /\ Hologram.opacity (fadeFrames 100 h) == 1.
Proof.
  destruct (@hologram_fades_in sampleHost string unit initialCamera "image" [] 0%nat)
    as (h & Ha & _ & _ & Hk).
  exists h. split; [exact Ha|]. apply (Hk 100%nat). lia.
Defined.
